(** * NuttyB-Raptors: the Lua template pipeline and the stored configuration

    A shallow embedding of
    - the template interpolation module ([parseReference],
      [evaluateExpression], [interpolateTemplate], [processLuaReference]),
    - [validateStoredConfiguration] of [configuration-storage/storage.ts],
    - the command builder as the specification describes it, and the
      recovery procedure and the expected-command helper of the command
      generation test,
    - the file name of a data item ([components/tabs/data/data-item.tsx]),
    followed by the properties stated about them.

    Conventions.
    - A JavaScript string is the list of its UTF-16 code units ([list N]).
      The regular expressions of the source are written out as the scans
      they perform.
    - A JavaScript number is an IEEE 754 binary64 value, [spec_float] with
      precision 53 and maximal exponent 1024; [Number.parseFloat] and
      [Number.prototype.toString] are defined on it.
    - [console.warn] is modelled by a log: every function that may warn
      returns its result together with the list of warnings it emitted, in
      emission order.
    - An object used as a dictionary ([Record<string, string>]) is the finite
      map of its own properties. The properties an object literal inherits
      from [Object.prototype] (as the language defines it) are modelled where
      the source consults them: the [in] operator, property reads and
      property writes.
    - A [Map] is the finite map of its entries. *)

From Stdlib Require Import ZArith NArith List Ascii String Bool Lia SpecFloat.
From stdpp Require Import base option list gmap.

Local Open Scope N_scope.

(** ** Strings *)

Abbreviation jsstring := (list N) (only parsing).

(** A literal, written with the ASCII characters of a Rocq string. *)
Definition str (s : string) : jsstring :=
  map N_of_ascii (list_ascii_of_string s).

(** One code unit, from a one-character literal. *)
Definition chr (s : string) : N :=
  match s with
  | String a _ => N_of_ascii a
  | EmptyString => 0
  end.

(** [\d] of a regular expression without the unicode flag: [0-9]. *)
Definition isDigit (c : N) : bool := (48 <=? c) && (c <=? 57).

(** [\w]: [A-Za-z0-9_]. *)
Definition isWordChar (c : N) : bool :=
  ((65 <=? c) && (c <=? 90)) || ((97 <=? c) && (c <=? 122))
  || isDigit c || (c =? 95).

(** White space and line terminators: what [\s] matches and what
    [String.prototype.trim] and [parseFloat] strip. *)
Definition isWhiteSpace (c : N) : bool :=
  ((9 <=? c) && (c <=? 13)) || (c =? 32) || (c =? 160) || (c =? 5760)
  || ((8192 <=? c) && (c <=? 8202)) || (c =? 8232) || (c =? 8233)
  || (c =? 8239) || (c =? 8287) || (c =? 12288) || (c =? 65279).

Fixpoint trimStart (s : jsstring) : jsstring :=
  match s with
  | c :: t => if isWhiteSpace c then trimStart t else s
  | [] => []
  end.

Definition trimEnd (s : jsstring) : jsstring := rev (trimStart (rev s)).

(** [String.prototype.trim]. *)
Definition trim (s : jsstring) : jsstring := trimEnd (trimStart s).

(** [s.split(sep)] for a one-character separator: never empty, the empty
    string splits into one empty piece. *)
Fixpoint split (sep : N) (s : jsstring) : list jsstring :=
  match s with
  | [] => [[]]
  | c :: t =>
      if c =? sep then [] :: split sep t
      else match split sep t with
           | h :: r => (c :: h) :: r
           | [] => [[c]]
           end
  end.

(** [s.includes(c)] for a one-character needle. *)
Definition includes (c : N) (s : jsstring) : bool := existsb (N.eqb c) s.

(** [s.startsWith(p)]. *)
Fixpoint startsWith (p s : jsstring) : bool :=
  match p, s with
  | [], _ => true
  | a :: p', b :: s' => (a =? b) && startsWith p' s'
  | _ :: _, [] => false
  end.

(** [Array.prototype.join]. *)
Fixpoint join (sep : jsstring) (l : list jsstring) : jsstring :=
  match l with
  | [] => []
  | [x] => x
  | x :: r => x ++ sep ++ join sep r
  end.

(** The longest prefix of [s] whose code units satisfy [p], and the rest. *)
Fixpoint span (p : N -> bool) (s : jsstring) : jsstring * jsstring :=
  match s with
  | c :: t => if p c then let '(a, b) := span p t in (c :: a, b) else ([], s)
  | [] => ([], [])
  end.

(** ** Numbers *)

Module Number.

Local Open Scope Z_scope.

Abbreviation number := spec_float (only parsing).

Definition prec : Z := 53.
Definition emax : Z := 1024.

Definition NaN : number := S754_nan.

Definition isNaN (x : number) : bool :=
  match x with S754_nan => true | _ => false end.

(** [x * y] and [x / y] on Number values. *)
Definition mul (x y : number) : number := SFmul prec emax x y.
Definition div (x y : number) : number := SFdiv prec emax x y.

(** The Number value of the decimal [m * 10^e] ([m >= 0]) with sign [neg]:
    the binary64 value nearest to it, ties to even, computed with one
    rounding. *)
Definition ofDecimal (neg : bool) (m e : Z) : number :=
  match m with
  | Zpos p =>
      match e with
      | Zneg _ =>
          let '(q, e', l) :=
            SFdiv_core_binary prec emax m 0 (10 ^ (- e)) 0 in
          binary_round_aux prec emax neg q e' l
      | _ => binary_round prec emax neg (p * Z.to_pos (10 ^ e)) 0
      end
  | _ => S754_zero neg
  end.

(** The value of a run of decimal digits. *)
Definition digitValue (c : N) : Z := Z.of_N c - 48.

Definition digitsValue (ds : jsstring) : Z :=
  fold_left (fun acc c => 10 * acc + digitValue c) ds 0.

(** [ExponentPart] of a [StrDecimalLiteral] at the head of [s]: [e] or [E],
    an optional sign, at least one digit. Without a digit the letter is not
    part of the literal and the exponent is [0]. *)
Definition exponentPart (s : jsstring) : Z :=
  match s with
  | c :: t =>
      if (c =? 101)%N || (c =? 69)%N then
        let '(neg, t') :=
          match t with
          | d :: u => if (d =? 45)%N then (true, u)
                      else if (d =? 43)%N then (false, u) else (false, t)
          | [] => (false, t)
          end in
        let ds := fst (span isDigit t') in
        if neg then - digitsValue ds else digitsValue ds
      else 0
  | [] => 0
  end.

(** [Number.parseFloat(s)]: leading white space is skipped, then the longest
    prefix that is a [StrDecimalLiteral] is converted; what follows it is
    ignored, and the result is [NaN] when there is no such prefix. *)
Definition parseFloat (s : jsstring) : number :=
  let t := trimStart s in
  let '(neg, u) :=
    match t with
    | c :: r => if (c =? 45)%N then (true, r)
                else if (c =? 43)%N then (false, r) else (false, t)
    | [] => (false, t)
    end in
  if startsWith (str "Infinity") u then S754_infinity neg
  else
    let '(ip, r1) := span isDigit u in
    let '(fp, r2) :=
      match r1 with
      | c :: r => if (c =? 46)%N then span isDigit r else ([], r1)
      | [] => ([], r1)
      end in
    match ip, fp with
    | [], [] => NaN
    | _, _ =>
        ofDecimal neg (digitsValue (ip ++ fp))
          (exponentPart r2 - Z.of_nat (length fp))
    end.

(** *** Number to string *)

(** The digits of a non-negative integer, most significant first
    ([fuel] bounds their number). *)
Fixpoint digitsOf (fuel : nat) (n : Z) (acc : jsstring) : jsstring :=
  match fuel with
  | O => acc
  | S f =>
      let acc' := Z.to_N (48 + n mod 10) :: acc in
      if n <? 10 then acc' else digitsOf f (n / 10) acc'
  end.

Definition decimalDigits (n : Z) : jsstring :=
  digitsOf (S (Z.to_nat (Z.log2 n))) n [].

(** A positive finite value as the exact fraction [num / den]. *)
Definition fraction (m : positive) (e : Z) : Z * Z :=
  if 0 <=? e then (Zpos m * 2 ^ e, 1) else (Zpos m, 2 ^ (- e)).

(** [num / den * 10^j] as a fraction. *)
Definition scale10 (q : Z * Z) (j : Z) : Z * Z :=
  let '(num, den) := q in
  if 0 <=? j then (num * 10 ^ j, den) else (num, den * 10 ^ (- j)).

(** Whether [10^j <= num / den]. *)
Definition gePow10 (q : Z * Z) (j : Z) : bool :=
  let '(num, den) := scale10 q (- j) in den <=? num.

(** The integer [n] with [10^(n-1) <= x < 10^n], found from an estimate by
    the binary logarithm and corrected in both directions. *)
Fixpoint raiseExp (fuel : nat) (q : Z * Z) (n : Z) : Z :=
  match fuel with
  | O => n
  | S f => if gePow10 q n then raiseExp f q (n + 1) else n
  end.

Fixpoint lowerExp (fuel : nat) (q : Z * Z) (n : Z) : Z :=
  match fuel with
  | O => n
  | S f => if gePow10 q (n - 1) then n else lowerExp f q (n - 1)
  end.

Definition decimalExponent (m : positive) (e : Z) : Z :=
  let q := fraction m e in
  let est := (Z.log2 (Zpos m) + e) * 30103 / 100000 in
  lowerExp 4 q (raiseExp 4 q est).

(** The candidates with [k] digits next to [x = m * 2^e]: [s * 10^(n-k)]
    for [s] the floor of [x * 10^(k-n)] and its successor. The result is the
    one that reads back as [x]; when both do, the nearer one, and the even
    one when they are equally near. *)
Definition candidate (m : positive) (e n : Z) (k : Z) : option Z :=
  let x := S754_finite false m e in
  let '(num, den) := scale10 (fraction m e) (k - n) in
  let lo := num / den in
  let hi := lo + 1 in
  let back s := SFeqb (ofDecimal false s (n - k)) x in
  match back lo, back hi with
  | true, true =>
      match (2 * (num - lo * den)) ?= den with
      | Lt => Some lo
      | Gt => Some hi
      | Eq => Some (if Z.even lo then lo else hi)
      end
  | true, false => Some lo
  | false, true => Some hi
  | false, false => None
  end.

(** The shortest digit string: the least [k] with a candidate. Seventeen
    digits always suffice for a binary64 value. *)
Fixpoint shortest (fuel : nat) (m : positive) (e n : Z) (k : Z) : Z * Z :=
  match fuel with
  | O => let '(num, den) := scale10 (fraction m e) (k - n) in (num / den, k)
  | S f =>
      match candidate m e n k with
      | Some s => (s, k)
      | None => shortest f m e n (k + 1)
      end
  end.

(** Trailing zeros are no part of the digit string ([s = 10^k] arises when
    the upper candidate is a power of ten). *)
Fixpoint stripZeros (fuel : nat) (s : Z) : Z :=
  match fuel with
  | O => s
  | S f => if (s mod 10 =? 0) && (0 <? s) then stripZeros f (s / 10) else s
  end.

Definition zeros (n : Z) : jsstring := repeat 48%N (Z.to_nat n).

(** [Number::toString(x)] in radix 10, for positive finite [x] with digit
    string [ds] ([k] digits) and decimal exponent [n]. *)
Definition formatDecimal (ds : jsstring) (n : Z) : jsstring :=
  let k := Z.of_nat (length ds) in
  if (k <=? n) && (n <=? 21) then ds ++ zeros (n - k)
  else if (0 <? n) && (n <=? 21) then
    take (Z.to_nat n) ds ++ str "." ++ drop (Z.to_nat n) ds
  else if (-6 <? n) && (n <=? 0) then str "0." ++ zeros (- n) ++ ds
  else
    let ex := n - 1 in
    let sign := if ex <? 0 then str "-" else str "+" in
    let mant :=
      match ds with
      | [d] => [d]
      | d :: r => d :: str "." ++ r
      | [] => []
      end in
    mant ++ str "e" ++ sign ++ decimalDigits (Z.abs ex).

(** [x.toString()] for a Number [x]. *)
Definition toString (x : number) : jsstring :=
  match x with
  | S754_nan => str "NaN"
  | S754_zero _ => str "0"
  | S754_infinity s => (if s then str "-" else []) ++ str "Infinity"
  | S754_finite s m e =>
      let n0 := decimalExponent m e in
      let '(d, k) := shortest 17 m e n0 1 in
      let d' := stripZeros 20 d in
      let ds := decimalDigits d' in
      (* value = d * 10^(n0 - k); the digit string has [length ds] digits
         and [length (digits of d) - length ds] zeros were dropped *)
      let n := n0 - k + Z.of_nat (length (decimalDigits d)) in
      (if s then str "-" else []) ++ formatDecimal ds n
  end.

End Number.

(** ** Warnings *)

(** One constructor per [console.warn] call of the template module, carrying
    the values interpolated into its message. *)
Inductive warning :=
  | MissingPrefix (ref : jsstring)
      (** Invalid Lua reference (missing ~ prefix): ref *)
  | MalformedReference (ref : jsstring)
      (** Malformed Lua reference syntax: ref *)
  | InvalidVariablePair (ref pair : jsstring)
      (** Invalid variable pair in reference ref: "pair" *)
  | UnsafeExpression (expression : jsstring)
      (** Unsafe expression detected, skipping evaluation: expression *)
  | UnsupportedExpression (expression : jsstring)
      (** Expression format not supported for evaluation: expression *)
  | UndefinedVariable (varName placeholder : jsstring)
      (** Undefined template variable: varName (placeholder: match) *)
  | UnusedVariables (names : gset jsstring)
      (** Template variables provided but not used: names *)
  | FileNotFound (filePath ref : jsstring)
      (** Lua file not found in bundle: filePath (from reference: ref) *).

(** A computation that logs warnings. *)
Definition Warn (A : Type) : Type := A * list warning.

Definition ret {A} (a : A) : Warn A := (a, []).

Definition bind {A B} (m : Warn A) (k : A -> Warn B) : Warn B :=
  let '(a, w1) := m in
  let '(b, w2) := k a in
  (b, w1 ++ w2).

Definition warn (w : warning) : Warn unit := (tt, [w]).

Notation "'let!' x ':=' m 'in' k" := (bind m (fun x => k))
  (at level 10, x name, m at level 100, k at level 200).
Notation "m '>>' k" := (bind m (fun _ => k))
  (at level 199, right associativity).

(** ** Objects used as dictionaries *)

Module Obj.

(** What a property read can yield on a [Record<string, string>] created by
    an object literal: one of its own strings, or a property inherited from
    [Object.prototype]. *)
Inductive value :=
  | VString (s : jsstring)
  | VUndefined
  | VObjectPrototype            (** the object [Object.prototype] itself *)
  | VBuiltin (name : jsstring)  (** a built-in function, by its name *).

(** The names of the methods of [Object.prototype]. *)
Definition prototypeMethods : list jsstring :=
  [ str "hasOwnProperty"; str "isPrototypeOf"; str "propertyIsEnumerable";
    str "toLocaleString"; str "toString"; str "valueOf";
    str "__defineGetter__"; str "__defineSetter__";
    str "__lookupGetter__"; str "__lookupSetter__" ].

(** A property read on [Object.prototype], through an object that has it as
    its prototype: [__proto__] is an accessor that returns the prototype,
    [constructor] is the function [Object]. *)
Definition prototypeGet (k : jsstring) : option value :=
  if bool_decide (k = str "__proto__") then Some VObjectPrototype
  else if bool_decide (k = str "constructor") then Some (VBuiltin (str "Object"))
  else if bool_decide (k ∈ prototypeMethods) then Some (VBuiltin k)
  else None.

(** [k in o]: an own property, or one found on the prototype. *)
Definition has (k : jsstring) (o : gmap jsstring jsstring) : bool :=
  match o !! k with
  | Some _ => true
  | None => match prototypeGet k with Some _ => true | None => false end
  end.

(** [o[k]]. *)
Definition get (k : jsstring) (o : gmap jsstring jsstring) : value :=
  match o !! k with
  | Some v => VString v
  | None => default VUndefined (prototypeGet k)
  end.

(** [o[k] = v] for a string [v]: creates or overwrites the own property,
    except for [__proto__], whose inherited setter ignores a value that is
    neither an object nor null. *)
Definition set (k v : jsstring) (o : gmap jsstring jsstring)
  : gmap jsstring jsstring :=
  if bool_decide (k = str "__proto__") then o else <[k := v]> o.

(** [Object.keys(o)], as a set. *)
Definition keys (o : gmap jsstring jsstring) : gset jsstring := dom o.

End Obj.

(** ** parseReference *)

Record ParsedReference := {
  filePath : jsstring;
  variables : gmap jsstring jsstring
}.

(** [ref.match(/^~([^{]+)(?:\{([^}]+)\})?$/)]: groups 1 and 2 of the match.
    Group 1 is the longest run without an opening brace after the tilde and
    is not empty; what follows is nothing, or a brace, a non-empty run
    without a closing brace, a closing brace and the end of the string. *)
Definition matchReference (ref : jsstring)
  : option (jsstring * option jsstring) :=
  match ref with
  | c :: rest =>
      if c =? chr "~" then
        let '(path, tail) := span (fun c => negb (c =? chr "{")) rest in
        match path, tail with
        | [], _ => None
        | _, [] => Some (path, None)
        | _, _ :: body =>
            let '(vars, close) := span (fun c => negb (c =? chr "}")) body in
            match vars, close with
            | _ :: _, [_] => Some (path, Some vars)
            | _, _ => None
            end
        end
      else None
  | [] => None
  end.

(** [const [key, value] = pair.split('=').map((s) => s.trim())] and the test
    [!key || value === undefined]: the pair to record, if any. *)
Definition parsePair (pair : jsstring) : option (jsstring * jsstring) :=
  match map trim (split (chr "=") pair) with
  | key :: value :: _ =>
      match key with
      | [] => None
      | _ => Some (key, value)
      end
  | _ => None
  end.

(** The loop over the pairs. *)
Fixpoint parsePairs (ref : jsstring) (pairs : list jsstring)
    (variables : gmap jsstring jsstring) : Warn (gmap jsstring jsstring) :=
  match pairs with
  | [] => ret variables
  | entry :: rest =>
      match parsePair entry with
      | Some (key, value) => parsePairs ref rest (Obj.set key value variables)
      | None =>
          warn (InvalidVariablePair ref entry) >>
          parsePairs ref rest variables
      end
  end.

Definition parseReference (ref : jsstring) : Warn (option ParsedReference) :=
  if negb (startsWith (str "~") ref) then
    warn (MissingPrefix ref) >> ret None
  else
    match matchReference ref with
    | None => warn (MalformedReference ref) >> ret None
    | Some (filePath, variablesString) =>
        let! variables :=
          match variablesString with
          | Some ((_ :: _) as vs) => parsePairs ref (split (chr ",") vs) ∅
          | _ => ret ∅
          end in
        ret (Some {| filePath := filePath; variables := variables |})
    end.

(** ** evaluateExpression *)

(** The character class [[\d\s+\-*/().]]. *)
Definition safeChar (c : N) : bool :=
  isDigit c || isWhiteSpace c || existsb (N.eqb c) (str "+-*/().").

(** [/^[\d\s+\-*/().]+$/.test(expression)]. *)
Definition isSafeExpression (expression : jsstring) : bool :=
  match expression with
  | [] => false
  | _ => forallb safeChar expression
  end.

(** [trimmed.split(op).map((p) => Number.parseFloat(p.trim()))] followed by
    the test [parts.length === 2 && parts.every((p) => !Number.isNaN(p))]:
    the two operands when the test passes. *)
Definition operands (op : N) (trimmed : jsstring)
  : option (spec_float * spec_float) :=
  match map (fun p => Number.parseFloat (trim p)) (split op trimmed) with
  | [a; b] =>
      if negb (Number.isNaN a) && negb (Number.isNaN b) then Some (a, b)
      else None
  | _ => None
  end.

(** The [try] block cannot throw on a string, so the [catch] branch is not
    modelled. *)
Definition evaluateExpression (expression : jsstring) : Warn jsstring :=
  if negb (isSafeExpression expression) then
    warn (UnsafeExpression expression) >> ret expression
  else
    let trimmed := trim expression in
    let division :=
      if includes (chr "/") trimmed then operands (chr "/") trimmed
      else None in
    match division with
    | Some (a, b) => ret (Number.toString (Number.div a b))
    | None =>
        let multiplication :=
          if includes (chr "*") trimmed then operands (chr "*") trimmed
          else None in
        match multiplication with
        | Some (a, b) => ret (Number.toString (Number.mul a b))
        | None => warn (UnsupportedExpression expression) >> ret expression
        end
    end.

(** ** String.prototype.replaceAll with a global pattern and a replacer *)

Section ReplaceAll.

Context {St : Type}.

(** The attempt to match the pattern at the head of a string: the matched
    text, its capture group and what follows the match. The patterns of
    this module match at least one code unit. *)
Variable matchAt : jsstring -> option (jsstring * jsstring * jsstring).

(** The replacer callback, which may update a state (a log of warnings, a
    set of used names). *)
Variable replacer : jsstring -> jsstring -> St -> jsstring * St.

(** The scan, left to right: where the pattern matches, the replacement is
    emitted and the scan resumes after the match; elsewhere one code unit
    is copied. [fuel] bounds the number of steps. *)
Fixpoint replaceAllFrom (fuel : nat) (s : jsstring) (st : St)
  : jsstring * St :=
  match fuel with
  | O => (s, st)
  | S fuel' =>
      match s with
      | [] => ([], st)
      | c :: t =>
          match matchAt s with
          | Some (m, g, rest) =>
              let '(r, st1) := replacer m g st in
              let '(out, st2) := replaceAllFrom fuel' rest st1 in
              (r ++ out, st2)
          | None =>
              let '(out, st1) := replaceAllFrom fuel' t st in
              (c :: out, st1)
          end
      end
  end.

Definition replaceAll (s : jsstring) (st : St) : jsstring * St :=
  replaceAllFrom (length s) s st.

End ReplaceAll.

(** [/\$(\w+)\$/] at the head of [s]. *)
Definition matchPlaceholder (s : jsstring)
  : option (jsstring * jsstring * jsstring) :=
  match s with
  | c :: t =>
      if c =? chr "$" then
        let '(name, rest) := span isWordChar t in
        match name, rest with
        | _ :: _, d :: rest' =>
            if d =? chr "$" then Some (c :: name ++ [d], name, rest')
            else None
        | _, _ => None
        end
      else None
  | [] => None
  end.

(** [/\(([^()]+)\)/] at the head of [s]. *)
Definition notParen (c : N) : bool := negb ((c =? chr "(") || (c =? chr ")")).

Definition matchGroup (s : jsstring)
  : option (jsstring * jsstring * jsstring) :=
  match s with
  | c :: t =>
      if c =? chr "(" then
        let '(expression, rest) := span notParen t in
        match expression, rest with
        | _ :: _, d :: rest' =>
            if d =? chr ")" then Some (c :: expression ++ [d], expression, rest')
            else None
        | _, _ => None
        end
      else None
  | [] => None
  end.

(** [/[+\-*/]/.test(expression)]. *)
Definition hasOperator (expression : jsstring) : bool :=
  existsb (fun c => existsb (N.eqb c) (str "+-*/")) expression.

Section Engine.

(** The text a built-in function converts to ([Function.prototype.toString]
    of a native function); its layout is left to the engine. *)
Variable nativeSource : jsstring -> jsstring.

(** The string a replacer's return value is converted to. *)
Definition valueToString (v : Obj.value) : jsstring :=
  match v with
  | Obj.VString s => s
  | Obj.VUndefined => str "undefined"
  | Obj.VObjectPrototype => str "[object Object]"
  | Obj.VBuiltin name => nativeSource name
  end.

(** The replacer of the first pass; the state is the set [usedVariables]
    and the log. *)
Definition substitute (variables : gmap jsstring jsstring)
    (placeholder varName : jsstring) (st : gset jsstring * list warning)
  : jsstring * (gset jsstring * list warning) :=
  let '(usedVariables, log) := st in
  if Obj.has varName variables then
    (valueToString (Obj.get varName variables),
     ({[ varName ]} ∪ usedVariables, log))
  else
    (placeholder,
     (usedVariables, log ++ [UndefinedVariable varName placeholder])).

Definition firstPass (template : jsstring)
    (variables : gmap jsstring jsstring)
  : jsstring * (gset jsstring * list warning) :=
  replaceAll matchPlaceholder (substitute variables) template (∅, []).

(** The replacer of the second pass; the state is the log. *)
Definition evaluateGroup (group expression : jsstring) (log : list warning)
  : jsstring * list warning :=
  if hasOperator expression then
    let '(evaluated, w) := evaluateExpression expression in
    (str "(" ++ evaluated ++ str ")", log ++ w)
  else (group, log).

Definition secondPass (interpolated : jsstring) (log : list warning)
  : jsstring * list warning :=
  replaceAll matchGroup evaluateGroup interpolated log.

Definition interpolateTemplate (template : jsstring)
    (variables : gmap jsstring jsstring) : Warn jsstring :=
  let '(interpolated, (usedVariables, log1)) :=
    firstPass template variables in
  let '(interpolated, log2) := secondPass interpolated log1 in
  let unusedVariables := Obj.keys variables ∖ usedVariables in
  if bool_decide (unusedVariables = ∅) then (interpolated, log2)
  else (interpolated, log2 ++ [UnusedVariables unusedVariables]).

(** ** processLuaReference *)

(** [luaFileMap.get(filePath)] followed by [if (!template)]: the empty
    string is falsy, as is [undefined]. *)
Definition processLuaReference (ref : jsstring)
    (luaFileMap : gmap jsstring jsstring) : Warn (option jsstring) :=
  let! parsed := parseReference ref in
  match parsed with
  | None => ret None
  | Some {| filePath := filePath; variables := variables |} =>
      match luaFileMap !! filePath with
      | None | Some [] =>
          warn (FileNotFound filePath ref) >> ret None
      | Some ((_ :: _) as template) =>
          if bool_decide (Obj.keys variables = ∅) then ret (Some template)
          else
            let! interpolated := interpolateTemplate template variables in
            ret (Some interpolated)
      end
  end.

End Engine.

(** ** configuration-storage/storage.ts *)

Module Storage.

(** What the field [configuration] of a stored record can hold once read
    back from storage: nothing, [null], a primitive, or an object with its
    own enumerable properties (an array is an object whose keys are its
    indices). *)
Inductive primitive :=
  | PBoolean (b : bool)
  | PNumber (x : spec_float)
  | PString (s : jsstring).

Inductive field (V : Type) :=
  | Undefined
  | Null
  | Primitive (p : primitive)
  | Object (props : gmap jsstring V).

Arguments Undefined {V}.
Arguments Null {V}.
Arguments Primitive {V} p.
Arguments Object {V} props.

Record StoredConfiguration (V : Type) := {
  configuration : field V;
  gitSha : jsstring
}.

Arguments configuration {V} s.
Arguments gitSha {V} s.

(** [!x]. *)
Definition falsy {V} (x : field V) : bool :=
  match x with
  | Undefined | Null => true
  | Primitive (PBoolean b) => negb b
  | Primitive (PNumber x) =>
      match x with S754_zero _ | S754_nan => true | _ => false end
  | Primitive (PString s) => match s with [] => true | _ => false end
  | Object _ => false
  end.

(** [typeof x !== 'object']. *)
Definition typeofNotObject {V} (x : field V) : bool :=
  match x with
  | Null | Object _ => false
  | Undefined | Primitive _ => true
  end.

Section Validation.

Context {V : Type}.

(** The schema's defaults, and the environment variable that holds the
    version. *)
Variable DEFAULT_CONFIGURATION : gmap jsstring V.
Variable NEXT_PUBLIC_GIT_SHA : option jsstring.

Definition getCurrentGitSha : jsstring :=
  default (str "development") NEXT_PUBLIC_GIT_SHA.

(** The spread [{ ...DEFAULT_CONFIGURATION, ...stored.configuration }]
    copies the own enumerable properties of the defaults, then those of
    the stored object over them. *)
Definition validateStoredConfiguration (stored : StoredConfiguration V)
  : option (StoredConfiguration V) :=
  if falsy (configuration stored) || typeofNotObject (configuration stored)
  then None
  else
    match configuration stored with
    | Object props =>
        Some {| configuration := Object (props ∪ DEFAULT_CONFIGURATION);
                gitSha := getCurrentGitSha |}
    | _ => None
    end.

(** [getDefaultStoredConfiguration()]. *)
Definition getDefaultStoredConfiguration : StoredConfiguration V :=
  {| configuration := Object DEFAULT_CONFIGURATION;
     gitSha := getCurrentGitSha |}.

(** [createStoredConfiguration(configuration)]. *)
Definition createStoredConfiguration (configuration : field V)
  : StoredConfiguration V :=
  {| configuration := configuration; gitSha := getCurrentGitSha |}.

End Validation.

End Storage.

(** ** The command builder

    The definitions of [lib/commands/command-builder] follow sections 4.4 to
    4.7 of the specification; the tables and limits of
    [lib/data/configuration-mapping] and the codec of [lib/base64] are
    parameters. The recovery of the source references follows the command
    generation test. *)

Module Builder.

(** The line terminator. *)
Definition LF : jsstring := [10].

(** Modelled from the spec: the entry of the mapping table for one value of
    a setting, whose three lists may be absent (here: empty). *)
Record TweakValue := {
  command : list jsstring;
  tweakdefs : list jsstring;
  tweakunits : list jsstring
}.

(** Modelled from the spec: the result of the Configuration Mapper. *)
Record Tweaks := {
  commands : list jsstring;
  tweakdefRefs : list jsstring;
  tweakunitRefs : list jsstring
}.

(** Modelled from the spec: a setting's value (string, number or enum-like)
    and its stringification. *)
Inductive setting :=
  | SString (s : jsstring)
  | SNumber (x : spec_float)
  | SBoolean (b : bool).

Definition stringify (v : setting) : jsstring :=
  match v with
  | SString s => s
  | SNumber x => Number.toString x
  | SBoolean b => if b then str "true" else str "false"
  end.

(** Modelled from the spec: the Source Annotator (4.5) prepends one Lua
    comment line that records the reference token. *)
Definition annotationLine (reference : jsstring) : jsstring :=
  str "-- Source: " ++ reference.

Definition annotate (sourceText reference : jsstring) : jsstring :=
  annotationLine reference ++ LF ++ sourceText.

Section Pipeline.

Variable nativeSource : jsstring -> jsstring.

(** The limits and the tables of [configuration-mapping], and the encoder
    of [lib/base64]. *)
Variable MAX_COMMAND_LENGTH : nat.
Variable MAX_SLOTS_PER_TYPE : nat.
Variable BASE_COMMANDS : list jsstring.
Variable BASE_TWEAKS : TweakValue.
Variable CONFIGURATION_MAPPING : jsstring -> jsstring -> option TweakValue.
Variable encode : jsstring -> jsstring.

(** Modelled from the spec: the Configuration Mapper (4.4). The
    configuration is the list of its settings in the schema's key order. *)
Definition mapToTweaks (configuration : list (jsstring * setting))
  : Tweaks :=
  fold_left
    (fun acc entry =>
       match CONFIGURATION_MAPPING (fst entry) (stringify (snd entry)) with
       | Some tv =>
           {| commands := commands acc ++ command tv;
              tweakdefRefs := tweakdefRefs acc ++ tweakdefs tv;
              tweakunitRefs := tweakunitRefs acc ++ tweakunits tv |}
       | None => acc
       end)
    configuration
    {| commands := BASE_COMMANDS;
       tweakdefRefs := tweakdefs BASE_TWEAKS;
       tweakunitRefs := tweakunits BASE_TWEAKS |}.

(** Modelled from the spec: the Section Builder (4.7) resolves every
    reference, skips those that resolve to null and annotates the rest. *)
Definition resolveAll (refs : list jsstring)
    (bundle : gmap jsstring jsstring) : list jsstring :=
  omap
    (fun ref =>
       match fst (processLuaReference nativeSource ref bundle) with
       | Some sourceText => Some (annotate sourceText ref)
       | None => None
       end)
    refs.

(** Modelled from the spec: the command of one slot (4.6). The index is
    left out when the category needs one slot only. *)
Definition slotCommand (category : jsstring) (index : option nat)
    (fragments : list jsstring) : jsstring :=
  str "!bset " ++ category
    ++ match index with
       | Some i => Number.decimalDigits (Z.of_nat i)
       | None => []
       end
    ++ str " " ++ encode (join LF fragments).

(** Modelled from the spec: a command or section is within the limit. *)
Definition fits (command : jsstring) : bool :=
  Nat.leb (length command) MAX_COMMAND_LENGTH.

(** Modelled from the spec: the split into contiguous groups, first fit by
    arrival. [current] is the group being filled and [index] its slot
    number; a fragment that does not fit a slot of its own is a failure. *)
Fixpoint packFrom (category : jsstring) (fragments current : list jsstring)
    (index : nat) : option (list jsstring) :=
  match fragments with
  | [] =>
      match current with
      | [] => Some []
      | _ => Some [slotCommand category (Some index) current]
      end
  | f :: rest =>
      if fits (slotCommand category (Some index) (current ++ [f])) then
        packFrom category rest (current ++ [f]) index
      else
        match current with
        | [] => None
        | _ =>
            if fits (slotCommand category (Some (S index)) [f]) then
              option_map
                (cons (slotCommand category (Some index) current))
                (packFrom category rest [f] (S index))
            else None
        end
  end.

(** Modelled from the spec: the Packing Engine (4.6). *)
Definition pack (category : jsstring) (fragments : list jsstring)
  : option (list jsstring) :=
  let single := slotCommand category None fragments in
  if fits single then Some [single]
  else
    match packFrom category fragments [] 0 with
    | Some slots =>
        if Nat.leb (length slots) MAX_SLOTS_PER_TYPE then Some slots
        else None
    | None => None
    end.

(** Modelled from the spec: the slot commands of the two categories. *)
Definition packTweaks (tweaks : Tweaks) (bundle : gmap jsstring jsstring)
  : option (list jsstring * list jsstring) :=
  match pack (str "tweakdefs") (resolveAll (tweakdefRefs tweaks) bundle),
        pack (str "tweakunits") (resolveAll (tweakunitRefs tweaks) bundle)
  with
  | Some defs, Some units => Some (defs, units)
  | _, _ => None
  end.

(** Modelled from the spec: the grouping of the flat command list into
    sections (4.7): a command joins the open section while the result
    stays within the limit, and starts a new one otherwise. *)
Fixpoint groupSections (flat : list jsstring) (current : option jsstring)
  : list jsstring :=
  match flat with
  | [] => match current with Some s => [s] | None => [] end
  | c :: rest =>
      match current with
      | None => groupSections rest (Some c)
      | Some s =>
          if fits (s ++ LF ++ c) then
            groupSections rest (Some (s ++ LF ++ c))
          else s :: groupSections rest (Some c)
      end
  end.

(** Modelled from the spec: the Section Builder (4.7); [None] is a build
    failure. *)
Definition buildLobbySections (configuration : list (jsstring * setting))
    (bundle : gmap jsstring jsstring) : option (list jsstring) :=
  let tweaks := mapToTweaks configuration in
  match packTweaks tweaks bundle with
  | Some (defs, units) =>
      Some (groupSections (commands tweaks ++ defs ++ units) None)
  | None => None
  end.

End Pipeline.

(** *** The recovery of the source references (command generation test) *)

(** [s.replace(pattern, '')] for a string pattern: the first occurrence is
    removed. *)
Fixpoint removeFirst (pattern s : jsstring) : jsstring :=
  if startsWith pattern s then drop (length pattern) s
  else match s with
       | c :: t => c :: removeFirst pattern t
       | [] => []
       end.

(** [/^!bset tweakdefs\d* /] at the head of a command: what follows the
    match. *)
Definition afterSlotPrefix (category command : jsstring) : option jsstring :=
  if startsWith (str "!bset " ++ category) command then
    match snd (span isDigit (drop (length (str "!bset " ++ category)) command))
    with
    | c :: payload => if c =? 32 then Some payload else None
    | [] => None
    end
  else None.

(** [generatedTweak.replace(/^!bset tweakdefs\d* |^!bset tweakunits\d* /, '')]. *)
Definition slotPayload (generatedTweak : jsstring) : jsstring :=
  match afterSlotPrefix (str "tweakdefs") generatedTweak with
  | Some payload => payload
  | None =>
      match afterSlotPrefix (str "tweakunits") generatedTweak with
      | Some payload => payload
      | None => generatedTweak
      end
  end.

(** Modelled from the spec: [stripCommentPrefix] of [lib/lua-comments]
    removes the marker of a Lua single-line comment from the head of a
    line. *)
Definition stripCommentPrefix (line : jsstring) : jsstring :=
  if startsWith (str "--") line then drop 2 line else line.

(** [stripCommentPrefix(line).trim().replace('Source: ', '')]. *)
Definition recoverReference (line : jsstring) : jsstring :=
  removeFirst (str "Source: ") (trim (stripCommentPrefix line)).

Section Recovery.

(** The decoder of [lib/base64]. *)
Variable decode : jsstring -> jsstring.

(** The references the test reads off one slot command. *)
Definition sourceRefs (generatedTweak : jsstring) : list jsstring :=
  map recoverReference
    (filter (fun line => startsWith (str "-- Source: ") line = true)
       (split 10 (decode (slotPayload generatedTweak)))).

(** What one generated line adds to the list [tweaks] of the test: itself
    when it is no slot command, its source references otherwise. *)
Definition decodeTweak (generatedTweak : jsstring) : list jsstring :=
  if startsWith (str "!bset tweakdefs") generatedTweak
     || startsWith (str "!bset tweakunits") generatedTweak
  then sourceRefs generatedTweak
  else [generatedTweak].

End Recovery.

End Builder.

(** ** components/tabs/data/data-item.tsx *)

(** [source?.split('/').pop()]: the last piece of the path; [undefined] for
    a command, which has no source. *)
Definition fileName (source : option jsstring) : option jsstring :=
  match source with
  | Some s => last (split (chr "/") s)
  | None => None
  end.

(** [fileName && ...]: the name is rendered when it is a non-empty string. *)
Definition fileNameShown (source : option jsstring) : bool :=
  match fileName source with
  | Some (_ :: _) => true
  | _ => false
  end.

(** ** The command generation test: the expected commands *)

Section Expected.

Variable BASE_COMMANDS : list jsstring.
Variable BASE_TWEAKS : Builder.TweakValue.
Variable CONFIGURATION_MAPPING
  : jsstring -> jsstring -> option Builder.TweakValue.

(** One turn of the loop over the keys of the configuration: nothing for a
    value the mapping has no entry for, otherwise the entry's commands,
    then its tweakdefs and its tweakunits paths (an absent list and an empty
    one add nothing). *)
Definition pushTweaks (mapped : list jsstring)
    (entry : jsstring * Builder.setting) : list jsstring :=
  match CONFIGURATION_MAPPING entry.1 (Builder.stringify entry.2) with
  | Some tweakValue =>
      mapped ++ Builder.command tweakValue ++ Builder.tweakdefs tweakValue
        ++ Builder.tweakunits tweakValue
  | None => mapped
  end.

(** [mapSettingsToConfig(configuration)], the configuration being the list
    of its properties in enumeration order. *)
Definition mapSettingsToConfig
    (configuration : list (jsstring * Builder.setting)) : list jsstring :=
  fold_left pushTweaks configuration
    (BASE_COMMANDS ++ Builder.tweakdefs BASE_TWEAKS
       ++ Builder.tweakunits BASE_TWEAKS).

End Expected.

(** ** The vocabulary of the statements *)

(** The pairs a variable list records, in order. *)
Definition recordedPairs (pairs : list jsstring)
  : list (jsstring * jsstring) :=
  omap parsePair pairs.

(** The pairs it skips, in order. *)
Definition skippedPairs (pairs : list jsstring) : list jsstring :=
  filter (fun p => parsePair p = None) pairs.

Definition record (variables : gmap jsstring jsstring)
    (kv : jsstring * jsstring) : gmap jsstring jsstring :=
  Obj.set kv.1 kv.2 variables.

(** ** A small configuration, for the instances below *)

Module Example.

Definition nativeSource (name : jsstring) : jsstring :=
  str "function " ++ name ++ str "() { [native code] }".

(** The plain codec: the payload is its own encoding. *)
Definition encode (s : jsstring) : jsstring := s.
Definition decode (s : jsstring) : jsstring := s.

Definition MAX_COMMAND_LENGTH : nat := 64.
Definition MAX_SLOTS_PER_TYPE : nat := 3.

Definition BASE_COMMANDS : list jsstring := [str "!preset coop"].

Definition BASE_TWEAKS : Builder.TweakValue :=
  {| Builder.command := [];
     Builder.tweakdefs := [str "~lua/main-defs.lua"];
     Builder.tweakunits := [] |}.

Definition CONFIGURATION_MAPPING (key value : jsstring)
  : option Builder.TweakValue :=
  if bool_decide (key = str "queenCount") && bool_decide (value = str "8")
  then Some {| Builder.command := [str "!raptor_queen_count 8"];
               Builder.tweakdefs := [str "~lua/hp.lua{HP=2}"];
               Builder.tweakunits := [str "~lua/units.lua"] |}
  else None.

Definition configuration : list (jsstring * Builder.setting) :=
  [(str "queenCount", Builder.SNumber (Number.parseFloat (str "8")))].

Definition bundle : gmap jsstring jsstring :=
  {[ str "lua/main-defs.lua" := str "a = 1";
     str "lua/hp.lua" := str "hp = (4 / $HP$)";
     str "lua/units.lua" := str "u = 2" ]}.

Definition tweaks : Builder.Tweaks :=
  Builder.mapToTweaks BASE_COMMANDS BASE_TWEAKS CONFIGURATION_MAPPING
    configuration.

Definition defs : list jsstring :=
  [str "!bset tweakdefs0 -- Source: ~lua/main-defs.lua" ++ Builder.LF
     ++ str "a = 1";
   str "!bset tweakdefs1 -- Source: ~lua/hp.lua{HP=2}" ++ Builder.LF
     ++ str "hp = (2)"].

Definition units : list jsstring :=
  [str "!bset tweakunits -- Source: ~lua/units.lua" ++ Builder.LF
     ++ str "u = 2"].

Definition sections : list jsstring :=
  [str "!preset coop" ++ Builder.LF ++ str "!raptor_queen_count 8";
   str "!bset tweakdefs0 -- Source: ~lua/main-defs.lua" ++ Builder.LF
     ++ str "a = 1";
   str "!bset tweakdefs1 -- Source: ~lua/hp.lua{HP=2}" ++ Builder.LF
     ++ str "hp = (2)";
   str "!bset tweakunits -- Source: ~lua/units.lua" ++ Builder.LF
     ++ str "u = 2"].

End Example.

(** ** Tactics *)

(** Closed decidable goals, by evaluation. *)
Ltac by_evaluation :=
  apply (bool_decide_unpack _); vm_compute; exact I.

(** * Properties *)

(** ** Strings *)

Lemma span_all (p : N -> bool) (s : jsstring) :
  forallb p s = true -> span p s = (s, []).
Proof.
  induction s as [|c t IH]; simpl; [done|].
  intros [Hc Ht]%andb_prop. rewrite Hc, (IH Ht). done.
Qed.

Lemma span_stop (p : N -> bool) (a : jsstring) (c : N) (b : jsstring) :
  forallb p a = true -> p c = false -> span p (a ++ c :: b) = (a, c :: b).
Proof.
  intros Ha Hc. induction a as [|x a IH]; simpl.
  - by rewrite Hc.
  - simpl in Ha. apply andb_prop in Ha as [Hx Ha].
    rewrite Hx, (IH Ha). done.
Qed.

Lemma forallb_differs (c : N) (s : jsstring) :
  c ∉ s -> forallb (fun x => negb (x =? c)) s = true.
Proof.
  induction s as [|x t IH]; simpl; [done|].
  intros Hn. apply not_elem_of_cons in Hn as [Hx Ht].
  rewrite (IH Ht), andb_true_r. apply negb_true_iff, N.eqb_neq. congruence.
Qed.

Lemma split_without (sep : N) (s : jsstring) :
  sep ∉ s -> split sep s = [s].
Proof.
  induction s as [|x t IH]; simpl; [done|].
  intros Hn. apply not_elem_of_cons in Hn as [Hx Ht].
  destruct (N.eqb_spec x sep) as [->|_]; [done|]. by rewrite (IH Ht).
Qed.

Lemma split_app (sep : N) (a b : jsstring) :
  sep ∉ a -> split sep (a ++ sep :: b) = a :: split sep b.
Proof.
  induction a as [|x t IH]; simpl; intros Hn.
  - by rewrite N.eqb_refl.
  - apply not_elem_of_cons in Hn as [Hx Ht].
    destruct (N.eqb_spec x sep) as [->|_]; [done|]. by rewrite (IH Ht).
Qed.

Lemma startsWith_app (p s : jsstring) : startsWith p (p ++ s) = true.
Proof. induction p as [|c p IH]; simpl; [done|]. by rewrite N.eqb_refl. Qed.

Lemma startsWith_inv (p s : jsstring) :
  startsWith p s = true -> exists t, s = p ++ t.
Proof.
  revert s. induction p as [|c p IH]; intros s; simpl.
  - by exists s.
  - destruct s as [|d s]; [done|].
    intros [->%N.eqb_eq Hs]%andb_prop.
    destruct (IH _ Hs) as [t ->]. by exists t.
Qed.

(** ** Numbers *)

(** The conversions agree with the values every ECMAScript engine prints:
    correctly rounded reading, correctly rounded arithmetic, shortest digits
    that read back. *)
Lemma Number_known_values :
  map (fun s => Number.toString (Number.parseFloat (str s)))
    ["0.1"; "1e21"; "1e-7"; "0.000001"; "5e-324"; "1.7976931348623157e308";
     "9007199254740993"; "123456789012345678901234567890"; "-0"; "abc";
     "1 + 1"; " 12.50xyz"; ".5"; "-Infinity"]%string
  = map str
      ["0.1"; "1e+21"; "1e-7"; "0.000001"; "5e-324";
       "1.7976931348623157e+308"; "9007199254740992";
       "1.2345678901234568e+29"; "0"; "NaN"; "1"; "12.5"; "0.5";
       "-Infinity"]%string
  /\ map (fun p => Number.toString
                     (Number.mul (Number.parseFloat (str p.1))
                        (Number.parseFloat (str p.2))))
       [("0.1", "3"); ("4.35", "100"); ("1.1", "3"); ("1e200", "1e200")]%string
     = map str
         ["0.30000000000000004"; "434.99999999999994";
          "3.3000000000000003"; "Infinity"]%string
  /\ map (fun p => Number.toString
                     (Number.div (Number.parseFloat (str p.1))
                        (Number.parseFloat (str p.2))))
       [("1", "3"); ("2", "3"); ("10", "3"); ("1", "7"); ("1", "0");
        ("0", "0")]%string
     = map str
         ["0.3333333333333333"; "0.6666666666666666"; "3.3333333333333335";
          "0.14285714285714285"; "Infinity"; "NaN"]%string.
Proof.
  split; [vm_compute; reflexivity|].
  split; vm_compute; reflexivity.
Qed.

(** ** replaceAll *)

Lemma span_length (p : N -> bool) (s : jsstring) :
  (length (snd (span p s)) <= length s)%nat.
Proof.
  induction s as [|c t IH]; simpl; [lia|].
  destruct (p c); [|simpl; lia].
  destruct (span p t) as [a b]. simpl in *. lia.
Qed.

(** Both patterns consume at least one code unit. *)
Lemma matchPlaceholder_shorter (s m g rest : jsstring) :
  matchPlaceholder s = Some (m, g, rest) -> (length rest < length s)%nat.
Proof.
  destruct s as [|c t]; [done|]. unfold matchPlaceholder.
  destruct (c =? chr "$"); [|done].
  pose proof (span_length isWordChar t) as Hl.
  destruct (span isWordChar t) as [name r].
  destruct name as [|n0 name]; [done|]. destruct r as [|d r']; [done|].
  destruct (d =? chr "$"); [|done]. intros [= _ _ <-]. simpl in *. lia.
Qed.

Lemma matchGroup_shorter (s m g rest : jsstring) :
  matchGroup s = Some (m, g, rest) -> (length rest < length s)%nat.
Proof.
  destruct s as [|c t]; [done|]. unfold matchGroup.
  destruct (c =? chr "("); [|done].
  pose proof (span_length notParen t) as Hl.
  destruct (span notParen t) as [expression r].
  destruct expression as [|e0 expression]; [done|].
  destruct r as [|d r']; [done|].
  destruct (d =? chr ")"); [|done]. intros [= _ _ <-]. simpl in *. lia.
Qed.

Section ReplaceAllProperties.

Context {St : Type}.
Variable matchAt : jsstring -> option (jsstring * jsstring * jsstring).
Variable replacer : jsstring -> jsstring -> St -> jsstring * St.
Hypothesis matchAt_shorter : forall s m g rest,
  matchAt s = Some (m, g, rest) -> (length rest < length s)%nat.

(** The scan ends within as many steps as the string has code units: more
    fuel does not change its result. *)
Lemma replaceAllFrom_fuel (fuel1 fuel2 : nat) (s : jsstring) (st : St) :
  (length s <= fuel1)%nat -> (length s <= fuel2)%nat ->
  replaceAllFrom matchAt replacer fuel1 s st
  = replaceAllFrom matchAt replacer fuel2 s st.
Proof.
  revert fuel2 s st.
  induction fuel1 as [|fuel1 IH]; intros fuel2 s st H1 H2.
  - destruct s; [|simpl in H1; lia]. by destruct fuel2.
  - destruct s as [|c t]; [by destruct fuel2|].
    destruct fuel2 as [|fuel2]; [simpl in H2; lia|].
    cbn [replaceAllFrom].
    destruct (matchAt (c :: t)) as [[[m g] rest]|] eqn:Hm.
    + apply matchAt_shorter in Hm. simpl in *.
      destruct (replacer m g st) as [r st1].
      by rewrite (IH fuel2 rest st1) by lia.
    + simpl in *. by rewrite (IH fuel2 t st) by lia.
Qed.

(** The equations of the scan. *)
Lemma replaceAll_nil (st : St) : replaceAll matchAt replacer [] st = ([], st).
Proof. reflexivity. Qed.

Lemma replaceAll_copy (c : N) (t : jsstring) (st : St) :
  matchAt (c :: t) = None ->
  replaceAll matchAt replacer (c :: t) st
  = let '(out, st1) := replaceAll matchAt replacer t st in (c :: out, st1).
Proof. intros Hm. unfold replaceAll. cbn [length replaceAllFrom]. by rewrite Hm. Qed.

Lemma replaceAll_match (s m g rest : jsstring) (st : St) :
  matchAt s = Some (m, g, rest) ->
  replaceAll matchAt replacer s st
  = let '(r, st1) := replacer m g st in
    let '(out, st2) := replaceAll matchAt replacer rest st1 in
    (r ++ out, st2).
Proof.
  intros Hm. pose proof (matchAt_shorter _ _ _ _ Hm) as Hl.
  unfold replaceAll. destruct s as [|c t]; [simpl in Hl; lia|].
  cbn [length replaceAllFrom]. rewrite Hm.
  destruct (replacer m g st) as [r st1].
  by rewrite (replaceAllFrom_fuel (length t) (length rest)) by (simpl in Hl; lia).
Qed.

End ReplaceAllProperties.

(** ** evaluateExpression *)

Lemma safeChar_elim (c : N) :
  isDigit c = false -> isWhiteSpace c = false -> c ∉ str "+-*/()." ->
  safeChar c = false.
Proof.
  intros Hd Hw Hn. unfold safeChar. rewrite Hd, Hw, !orb_false_l.
  apply not_true_is_false. intros H. apply Hn.
  apply existsb_exists in H as (x & Hx & ->%N.eqb_eq).
  by apply list_elem_of_In.
Qed.

Lemma isSafeExpression_false (expression : jsstring) (c : N) :
  c ∈ expression -> safeChar c = false -> isSafeExpression expression = false.
Proof.
  intros Hin Hc. unfold isSafeExpression.
  destruct expression as [|x t]; [done|].
  apply not_true_is_false. intros H.
  rewrite forallb_forall in H.
  apply list_elem_of_In, H in Hin. congruence.
Qed.

(** C5. An expression that contains a code unit outside the digits, white
    space and the seven characters [+ - * / ( ) .] is returned unchanged,
    with the warning about an unsafe expression and nothing else: neither
    operand parsing nor arithmetic takes place. *)
Theorem evaluateExpression_rejects_unsafe (expression : jsstring) (c : N) :
  c ∈ expression ->
  isDigit c = false -> isWhiteSpace c = false -> c ∉ str "+-*/()." ->
  evaluateExpression expression = (expression, [UnsafeExpression expression]).
Proof.
  intros Hin Hd Hw Hn. unfold evaluateExpression.
  rewrite (isSafeExpression_false expression c Hin (safeChar_elim c Hd Hw Hn)).
  reflexivity.
Qed.

(** C5 (instance): [evaluate("malicious()")]. *)
Lemma evaluateExpression_rejects_unsafe_witness :
  evaluateExpression (str "malicious()")
  = (str "malicious()", [UnsafeExpression (str "malicious()")]).
Proof.
  apply (evaluateExpression_rejects_unsafe (str "malicious()") (chr "m")).
  - vm_compute. apply list_elem_of_here.
  - reflexivity.
  - reflexivity.
  - vm_compute. intros H. repeat (apply elem_of_cons in H as [H|H]; [discriminate H|]).
    by apply elem_of_nil in H.
Defined.

(** The division branch: an accepted expression whose trimmed text holds a
    slash and splits at it into two operands that [parseFloat] accepts
    evaluates to their quotient. *)
Lemma evaluateExpression_division (expression : jsstring) (a b : spec_float) :
  isSafeExpression expression = true ->
  includes (chr "/") (trim expression) = true ->
  operands (chr "/") (trim expression) = Some (a, b) ->
  evaluateExpression expression = (Number.toString (Number.div a b), []).
Proof.
  intros Hs Hi Ho. unfold evaluateExpression. rewrite Hs, Hi, Ho. reflexivity.
Qed.

(** The multiplication branch is reached when the division branch does not
    apply. *)
Lemma evaluateExpression_multiplication (expression : jsstring)
    (a b : spec_float) :
  isSafeExpression expression = true ->
  includes (chr "/") (trim expression) = false ->
  includes (chr "*") (trim expression) = true ->
  operands (chr "*") (trim expression) = Some (a, b) ->
  evaluateExpression expression = (Number.toString (Number.mul a b), []).
Proof.
  intros Hs Hd Hi Ho. unfold evaluateExpression. rewrite Hs, Hd, Hi, Ho.
  reflexivity.
Qed.

(** C8. [evaluate("0.75 / 1.5")] is ["0.5"] and [evaluate("2 * 3")] is ["6"]:
    the expression is split at the operator into two operands, each read by
    [parseFloat], and the quotient (the product) is converted to its decimal
    string; no warning is emitted. *)
Theorem evaluateExpression_examples :
  operands (chr "/") (str "0.75 / 1.5")
    = Some (Number.parseFloat (str "0.75"), Number.parseFloat (str "1.5"))
  /\ Number.toString
       (Number.div (Number.parseFloat (str "0.75"))
          (Number.parseFloat (str "1.5"))) = str "0.5"
  /\ evaluateExpression (str "0.75 / 1.5") = (str "0.5", [])
  /\ operands (chr "*") (str "2 * 3")
       = Some (Number.parseFloat (str "2"), Number.parseFloat (str "3"))
  /\ Number.toString
       (Number.mul (Number.parseFloat (str "2")) (Number.parseFloat (str "3")))
     = str "6"
  /\ evaluateExpression (str "2 * 3") = (str "6", []).
Proof.
  assert (Hd : operands (chr "/") (trim (str "0.75 / 1.5"))
               = Some (Number.parseFloat (str "0.75"),
                       Number.parseFloat (str "1.5"))) by (vm_compute; reflexivity).
  assert (Hm : operands (chr "*") (trim (str "2 * 3"))
               = Some (Number.parseFloat (str "2"),
                       Number.parseFloat (str "3"))) by (vm_compute; reflexivity).
  assert (Hq : Number.toString
                 (Number.div (Number.parseFloat (str "0.75"))
                    (Number.parseFloat (str "1.5"))) = str "0.5")
    by (vm_compute; reflexivity).
  assert (Hp : Number.toString
                 (Number.mul (Number.parseFloat (str "2"))
                    (Number.parseFloat (str "3"))) = str "6")
    by (vm_compute; reflexivity).
  split; [exact Hd|]. split; [exact Hq|]. split.
  - rewrite <- Hq. by apply evaluateExpression_division.
  - split; [exact Hm|]. split; [exact Hp|].
    rewrite <- Hp. by apply evaluateExpression_multiplication.
Qed.

(** An accepted expression with neither a slash nor an asterisk comes back
    unchanged, with the warning about an unsupported format. *)
Lemma evaluateExpression_no_operator (expression : jsstring) :
  isSafeExpression expression = true ->
  includes (chr "/") (trim expression) = false ->
  includes (chr "*") (trim expression) = false ->
  evaluateExpression expression
  = (expression, [UnsupportedExpression expression]).
Proof.
  intros Hs Hd Hm. unfold evaluateExpression. by rewrite Hs, Hd, Hm.
Qed.

(** C1 (the code departs from the claim). [parseFloat] reads the longest
    numeric prefix of an operand and ignores the rest, so an operand such as
    [1 + 1] counts as the number [1]: expressions with an addition or more
    than two operands are evaluated, where they should come back unchanged. *)
Lemma evaluateExpression_numeric_prefix :
  Number.parseFloat (str "1 + 1") = Number.parseFloat (str "1")
  /\ evaluateExpression (str "1 + 1 / 2") = (str "0.5", [])
  /\ evaluateExpression (str "2 * 3 + 1") = (str "6", [])
  /\ evaluateExpression (str "2 + 3") = (str "2 + 3", [UnsupportedExpression (str "2 + 3")]).
Proof.
  split; [vm_compute; reflexivity|].
  split; [vm_compute; reflexivity|].
  split; vm_compute; reflexivity.
Qed.

(** ** processLuaReference *)

Section Resolver.

Variable nativeSource : jsstring -> jsstring.

(** A reference that does not parse resolves to null, with the parser's
    warnings and no other. *)
Lemma processLuaReference_unparsed (ref : jsstring) (log : list warning)
    (luaFileMap : gmap jsstring jsstring) :
  parseReference ref = (None, log) ->
  processLuaReference nativeSource ref luaFileMap = (None, log).
Proof.
  intros Hp. unfold processLuaReference. rewrite Hp. simpl.
  by rewrite app_nil_r.
Qed.

(** A path the bundle does not hold resolves to null, and the warning
    names the path and the token. *)
Lemma processLuaReference_absent (ref : jsstring) (parsed : ParsedReference)
    (log : list warning) (luaFileMap : gmap jsstring jsstring) :
  parseReference ref = (Some parsed, log) ->
  luaFileMap !! filePath parsed = None ->
  processLuaReference nativeSource ref luaFileMap
  = (None, log ++ [FileNotFound (filePath parsed) ref]).
Proof.
  intros Hp Hl. unfold processLuaReference. rewrite Hp.
  destruct parsed as [path vars]. simpl in *. by rewrite Hl.
Qed.

(** A non-empty file and an empty variable map: the text of the bundle,
    unchanged. *)
Lemma processLuaReference_plain (ref : jsstring) (parsed : ParsedReference)
    (log : list warning) (luaFileMap : gmap jsstring jsstring)
    (template : jsstring) :
  parseReference ref = (Some parsed, log) ->
  luaFileMap !! filePath parsed = Some template ->
  template <> [] ->
  variables parsed = ∅ ->
  processLuaReference nativeSource ref luaFileMap = (Some template, log).
Proof.
  intros Hp Hl Hne Hv. unfold processLuaReference. rewrite Hp.
  destruct parsed as [path vars]. simpl in *. rewrite Hl. subst vars.
  destruct template as [|c t]; [done|].
  unfold Obj.keys. rewrite dom_empty_L.
  rewrite bool_decide_eq_true_2 by done. simpl. by rewrite app_nil_r.
Qed.

(** C10. When the token parses and the bundle maps its path to the empty
    string, the lookup result is falsy and the resolver answers as it does
    for a path the bundle does not hold: null and the warning that the file
    was not found, never the empty text. *)
Theorem processLuaReference_empty_file (ref : jsstring)
    (parsed : ParsedReference) (log : list warning)
    (luaFileMap : gmap jsstring jsstring) :
  parseReference ref = (Some parsed, log) ->
  luaFileMap !! filePath parsed = Some [] ->
  processLuaReference nativeSource ref luaFileMap
  = (None, log ++ [FileNotFound (filePath parsed) ref])
  /\ processLuaReference nativeSource ref luaFileMap
     = processLuaReference nativeSource ref
         (delete (filePath parsed) luaFileMap)
  /\ fst (processLuaReference nativeSource ref luaFileMap) <> Some [].
Proof.
  intros Hp Hl.
  assert (He : processLuaReference nativeSource ref luaFileMap
               = (None, log ++ [FileNotFound (filePath parsed) ref])).
  { unfold processLuaReference. rewrite Hp.
    destruct parsed as [path vars]. simpl in *. by rewrite Hl. }
  split; [exact He|]. split.
  - rewrite He. symmetry. apply processLuaReference_absent; [done|].
    apply lookup_delete_eq.
  - by rewrite He.
Qed.

End Resolver.

(** C10 (instance): the token [~lua/empty.lua] and a bundle that holds the
    empty file. *)
Lemma processLuaReference_empty_file_witness :
  processLuaReference (fun name => name) (str "~lua/empty.lua")
    {[ str "lua/empty.lua" := [] ]}
  = (None, [] ++ [FileNotFound (str "lua/empty.lua") (str "~lua/empty.lua")])
  /\ processLuaReference (fun name => name) (str "~lua/empty.lua")
       {[ str "lua/empty.lua" := [] ]}
     = processLuaReference (fun name => name) (str "~lua/empty.lua")
         (delete (str "lua/empty.lua") {[ str "lua/empty.lua" := [] ]})
  /\ fst (processLuaReference (fun name => name) (str "~lua/empty.lua")
            {[ str "lua/empty.lua" := [] ]}) <> Some [].
Proof.
  apply (processLuaReference_empty_file (fun name => name)
           (str "~lua/empty.lua")
           {| filePath := str "lua/empty.lua"; variables := ∅ |} []).
  - vm_compute. reflexivity.
  - vm_compute. reflexivity.
Defined.

(** C2 (the code departs from the claim). The token [~lua/empty.lua]
    parses, with an empty variable map, and the bundle holds its path; the
    file is empty, and the resolver returns null with the warning that the
    file was not found, where the claim has it return the (empty) text of the
    bundle. *)
Lemma processLuaReference_present_but_null (nativeSource : jsstring -> jsstring) :
  let ref := str "~lua/empty.lua" in
  let luaFileMap : gmap jsstring jsstring := {[ str "lua/empty.lua" := [] ]} in
  parseReference ref
    = (Some {| filePath := str "lua/empty.lua"; variables := ∅ |}, [])
  /\ luaFileMap !! str "lua/empty.lua" = Some []
  /\ processLuaReference nativeSource ref luaFileMap
     = (None, [FileNotFound (str "lua/empty.lua") ref]).
Proof.
  intros ref luaFileMap.
  split; [vm_compute; reflexivity|].
  split; vm_compute; reflexivity.
Qed.

(** ** interpolateTemplate *)

Section FirstPass.

Variable nativeSource : jsstring -> jsstring.
Variable variables : gmap jsstring jsstring.

Local Abbreviation scan :=
  (replaceAll matchPlaceholder (substitute nativeSource variables)).

Lemma matchPlaceholder_other (c : N) (t : jsstring) :
  c <> chr "$" -> matchPlaceholder (c :: t) = None.
Proof.
  intros Hc. unfold matchPlaceholder.
  by destruct (N.eqb_spec c (chr "$")).
Qed.

Lemma matchPlaceholder_hit (name post : jsstring) :
  name <> [] -> forallb isWordChar name = true ->
  matchPlaceholder (chr "$" :: name ++ chr "$" :: post)
  = Some (chr "$" :: name ++ [chr "$"], name, post).
Proof.
  intros Hne Hw. unfold matchPlaceholder. rewrite N.eqb_refl.
  rewrite span_stop by done. destruct name; [done|]. by rewrite N.eqb_refl.
Qed.

(** Text without a dollar sign is copied. *)
Lemma scan_copy (pre s : jsstring) (st : gset jsstring * list warning) :
  chr "$" ∉ pre ->
  scan (pre ++ s) st = let '(out, st1) := scan s st in (pre ++ out, st1).
Proof.
  induction pre as [|c pre IH]; intros Hn.
  - cbn [app]. by destruct (scan s st).
  - apply not_elem_of_cons in Hn as [Hc Hn]. cbn [app].
    rewrite replaceAll_copy by (apply matchPlaceholder_other; congruence).
    rewrite (IH Hn). by destruct (scan s st).
Qed.

(** The first placeholder of a template: the text before it is copied, the
    replacer decides what stands in its place, and the scan resumes behind
    it. *)
Lemma scan_placeholder (pre name post : jsstring)
    (st : gset jsstring * list warning) :
  chr "$" ∉ pre -> name <> [] -> forallb isWordChar name = true ->
  scan (pre ++ chr "$" :: name ++ chr "$" :: post) st
  = let '(r, st1) :=
      substitute nativeSource variables (chr "$" :: name ++ [chr "$"]) name st
    in
    let '(out, st2) := scan post st1 in
    (pre ++ r ++ out, st2).
Proof.
  intros Hn Hne Hw. rewrite scan_copy by done.
  rewrite (replaceAll_match _ _ matchPlaceholder_shorter _ _ _ _ _
             (matchPlaceholder_hit name post Hne Hw)).
  destruct (substitute _ _ _ _ _) as [r st1].
  by destruct (scan post st1) as [out st2].
Qed.

(** A key of the map is replaced by its value and marked as used. *)
Lemma substitute_key (placeholder varName value : jsstring)
    (used : gset jsstring) (log : list warning) :
  variables !! varName = Some value ->
  substitute nativeSource variables placeholder varName (used, log)
  = (value, ({[ varName ]} ∪ used, log)).
Proof.
  intros Hv. unfold substitute, Obj.has, Obj.get. by rewrite Hv.
Qed.

(** A name that is neither a key of the map nor a property of
    [Object.prototype] keeps its placeholder, with a warning. *)
Lemma substitute_unknown (placeholder varName : jsstring)
    (used : gset jsstring) (log : list warning) :
  variables !! varName = None -> Obj.prototypeGet varName = None ->
  substitute nativeSource variables placeholder varName (used, log)
  = (placeholder, (used, log ++ [UndefinedVariable varName placeholder])).
Proof.
  intros Hv Hp. unfold substitute, Obj.has. by rewrite Hv, Hp.
Qed.

(** A name inherited from [Object.prototype] is replaced although the map
    has no such key. *)
Lemma substitute_inherited (placeholder varName : jsstring) (v : Obj.value)
    (used : gset jsstring) (log : list warning) :
  variables !! varName = None -> Obj.prototypeGet varName = Some v ->
  substitute nativeSource variables placeholder varName (used, log)
  = (valueToString nativeSource v, ({[ varName ]} ∪ used, log)).
Proof.
  intros Hv Hp. unfold substitute, Obj.has, Obj.get. by rewrite Hv, Hp.
Qed.

End FirstPass.

(** The two substitutions of section 8 of the specification. *)
Lemma interpolateTemplate_examples (nativeSource : jsstring -> jsstring) :
  interpolateTemplate nativeSource (str "a=$X$") {[ str "X" := str "5" ]}
  = (str "a=5", [])
  /\ interpolateTemplate nativeSource (str "a=$Y$") {[ str "X" := str "5" ]}
     = (str "a=$Y$",
        [UndefinedVariable (str "Y") (str "$Y$");
         UnusedVariables {[ str "X" ]}]).
Proof. split; vm_compute; reflexivity. Qed.

(** C4 (the code departs from the claim). The first pass asks [varName in
    variables], which also finds the properties an object literal inherits
    from [Object.prototype]. A placeholder named after one of them is
    replaced although the variable map has no such key: [$__proto__$]
    becomes the text of [Object.prototype], and no warning about an
    undefined variable is emitted. *)
Lemma interpolateTemplate_inherited_name (nativeSource : jsstring -> jsstring) :
  let variables : gmap jsstring jsstring := {[ str "X" := str "5" ]} in
  variables !! str "__proto__" = None
  /\ Obj.has (str "__proto__") variables = true
  /\ interpolateTemplate nativeSource (str "a=$__proto__$") variables
     = (str "a=[object Object]", [UnusedVariables {[ str "X" ]}])
  /\ processLuaReference nativeSource (str "~t.lua{X=5}")
       {[ str "t.lua" := str "a=$__proto__$" ]}
     = (Some (str "a=[object Object]"), [UnusedVariables {[ str "X" ]}])
  /\ fst (firstPass nativeSource (str "$toString$") variables)
     = nativeSource (str "toString").
Proof.
  intros variables.
  split; [vm_compute; reflexivity|].
  split; [vm_compute; reflexivity|].
  split; [vm_compute; reflexivity|].
  split; [vm_compute; reflexivity|].
  vm_compute. apply app_nil_r.
Qed.

(** ** validateStoredConfiguration *)

(** C9. A stored record whose configuration is an object validates to a
    record whose configuration has every key of the defaults, the stored
    value under every stored key and the default under every other key; the
    result is null exactly when the field is missing, null or no object. *)
Theorem validateStoredConfiguration_merge {V : Type}
    (DEFAULT_CONFIGURATION : gmap jsstring V)
    (NEXT_PUBLIC_GIT_SHA : option jsstring)
    (stored : Storage.StoredConfiguration V) :
  (forall props, Storage.configuration stored = Storage.Object props ->
     exists merged,
       Storage.validateStoredConfiguration DEFAULT_CONFIGURATION
         NEXT_PUBLIC_GIT_SHA stored
       = Some {| Storage.configuration := Storage.Object merged;
                 Storage.gitSha :=
                   Storage.getCurrentGitSha NEXT_PUBLIC_GIT_SHA |}
       /\ dom DEFAULT_CONFIGURATION ⊆ dom merged
       /\ (forall k v, props !! k = Some v -> merged !! k = Some v)
       /\ (forall k, props !! k = None ->
             merged !! k = DEFAULT_CONFIGURATION !! k))
  /\ (Storage.validateStoredConfiguration DEFAULT_CONFIGURATION
        NEXT_PUBLIC_GIT_SHA stored = None
      <-> forall props, Storage.configuration stored <> Storage.Object props).
Proof.
  unfold Storage.validateStoredConfiguration. split.
  - intros props ->. simpl. exists (props ∪ DEFAULT_CONFIGURATION).
    split; [done|]. split; [|split].
    + rewrite dom_union. set_solver.
    + intros k v Hk. by apply lookup_union_Some_l.
    + intros k Hk. by apply lookup_union_r.
  - destruct (Storage.configuration stored) as [| |p|props]; simpl.
    + done.
    + done.
    + rewrite orb_true_r. done.
    + split; [done|]. intros H. by destruct (H props).
Qed.

(** ** parseReference *)

Lemma matchReference_variables (path vs : jsstring) :
  path <> [] -> chr "{" ∉ path -> vs <> [] -> chr "}" ∉ vs ->
  matchReference (str "~" ++ path ++ str "{" ++ vs ++ str "}")
  = Some (path, Some vs).
Proof.
  intros Hp Hb Hv Hc.
  change (str "~") with [chr "~"]. change (str "{") with [chr "{"].
  change (str "}") with [chr "}"].
  unfold matchReference. cbn [app]. rewrite N.eqb_refl.
  rewrite (span_stop _ path (chr "{") (vs ++ [chr "}"]));
    [|by apply forallb_differs|by rewrite N.eqb_refl].
  rewrite (span_stop _ vs (chr "}") []);
    [|by apply forallb_differs|by rewrite N.eqb_refl].
  destruct path; [done|]. destruct vs; done.
Qed.

Lemma parsePairs_fold (ref : jsstring) (pairs : list jsstring)
    (variables : gmap jsstring jsstring) :
  parsePairs ref pairs variables
  = (foldl record variables (recordedPairs pairs),
     map (InvalidVariablePair ref) (skippedPairs pairs)).
Proof.
  revert variables. unfold recordedPairs, skippedPairs.
  induction pairs as [|p pairs IH]; intros variables; [done|].
  cbn [parsePairs omap list_omap]. rewrite filter_cons.
  destruct (parsePair p) as [[key value]|] eqn:Hp.
  - rewrite decide_False by done. by rewrite IH.
  - rewrite decide_True by done.
    unfold bind, warn. rewrite IH. done.
Qed.

(** The last pair recorded under a key decides its value. *)
Lemma foldl_record_last (kvs l1 l2 : list (jsstring * jsstring))
    (key value : jsstring) (variables : gmap jsstring jsstring) :
  key <> str "__proto__" ->
  kvs = l1 ++ (key, value) :: l2 -> key ∉ l2.*1 ->
  foldl record variables kvs !! key = Some value.
Proof.
  intros Hk -> Hl2. rewrite foldl_app. cbn [foldl].
  generalize (foldl record variables l1). intros m.
  assert (Hm : record m (key, value) !! key = Some value).
  { unfold record, Obj.set. simpl. rewrite bool_decide_eq_false_2 by done.
    apply lookup_insert_eq. }
  revert Hm. generalize (record m (key, value)). clear m.
  induction l2 as [|[k v] l2 IH]; intros m Hm; [done|].
  cbn [foldl]. rewrite fmap_cons in Hl2.
  apply not_elem_of_cons in Hl2 as [Hne Hl2]. simpl in Hne.
  apply IH; [done|].
  unfold record, Obj.set. simpl. case_bool_decide; [done|].
  by rewrite lookup_insert_ne.
Qed.

Lemma foldl_record_other (kvs : list (jsstring * jsstring)) (key : jsstring)
    (variables : gmap jsstring jsstring) :
  key ∉ kvs.*1 -> foldl record variables kvs !! key = variables !! key.
Proof.
  revert variables. induction kvs as [|[k v] kvs IH]; intros m Hn; [done|].
  cbn [foldl]. rewrite fmap_cons in Hn.
  apply not_elem_of_cons in Hn as [Hne Hn]. simpl in Hne.
  rewrite IH by done.
  unfold record, Obj.set. simpl. case_bool_decide; [done|].
  by rewrite lookup_insert_ne.
Qed.

Lemma parsePair_value (k v : jsstring) :
  chr "=" ∉ k -> chr "=" ∉ v ->
  parsePair (k ++ chr "=" :: v)
  = match trim k with [] => None | _ => Some (trim k, trim v) end.
Proof.
  intros Hk Hv. unfold parsePair.
  rewrite split_app by done. by rewrite split_without.
Qed.

Lemma parsePair_value_cut (k v rest : jsstring) :
  chr "=" ∉ k -> chr "=" ∉ v ->
  parsePair (k ++ chr "=" :: v ++ chr "=" :: rest)
  = match trim k with [] => None | _ => Some (trim k, trim v) end.
Proof.
  intros Hk Hv. unfold parsePair.
  rewrite split_app by done. by rewrite split_app.
Qed.

Lemma parsePair_no_equals (p : jsstring) :
  chr "=" ∉ p -> parsePair p = None.
Proof. intros Hp. unfold parsePair. by rewrite split_without. Qed.

(** C3, as corrected. For a token [~path{vars}] the parser does not fail.
    Every comma-separated pair is split at its equals signs and the pieces
    are trimmed: the first piece is the key, the second piece (the text
    between the first sign and the second one, or the end of the pair) is
    the value, and what follows a second sign is dropped. A pair whose key
    is empty or that has no equals sign is skipped with one warning, in
    order. Under every key other than [__proto__] the map holds the value of
    the last pair recorded for that key, and it holds nothing under a key no
    pair records. *)
Theorem parseReference_variable_list (path vs : jsstring) :
  path <> [] -> chr "{" ∉ path -> vs <> [] -> chr "}" ∉ vs ->
  let ref := str "~" ++ path ++ str "{" ++ vs ++ str "}" in
  let pairs := split (chr ",") vs in
  (exists vars,
     parseReference ref
     = (Some {| filePath := path; variables := vars |},
        map (InvalidVariablePair ref) (skippedPairs pairs))
     /\ (forall key value l1 l2,
           key <> str "__proto__" ->
           recordedPairs pairs = l1 ++ (key, value) :: l2 ->
           key ∉ l2.*1 -> vars !! key = Some value)
     /\ (forall key, key ∉ (recordedPairs pairs).*1 -> vars !! key = None))
  /\ (forall k v, chr "=" ∉ k -> chr "=" ∉ v ->
        parsePair (k ++ chr "=" :: v)
        = match trim k with [] => None | _ => Some (trim k, trim v) end)
  /\ (forall k v rest, chr "=" ∉ k -> chr "=" ∉ v ->
        parsePair (k ++ chr "=" :: v ++ chr "=" :: rest)
        = match trim k with [] => None | _ => Some (trim k, trim v) end)
  /\ (forall p, chr "=" ∉ p -> parsePair p = None).
Proof.
  intros Hp Hb Hv Hc ref pairs.
  split; [|split; [apply parsePair_value|
           split; [apply parsePair_value_cut|apply parsePair_no_equals]]].
  exists (foldl record ∅ (recordedPairs pairs)). split; [|split].
  - unfold parseReference.
    assert (Hs : startsWith (str "~") ref = true) by apply startsWith_app.
    rewrite Hs. cbn [negb].
    unfold ref at 1. rewrite matchReference_variables by done.
    destruct vs as [|c vs']; [done|].
    fold pairs. rewrite parsePairs_fold. unfold bind, ret.
    by rewrite app_nil_r.
  - intros key value l1 l2 Hk Hr Hl2. by eapply foldl_record_last.
  - intros key Hn. rewrite foldl_record_other by done. apply lookup_empty.
Qed.

(** C3 (instance): a token with a cut value, padded pieces, two skipped
    pairs and a repeated key. *)
Lemma parseReference_variable_list_witness :
  exists vars,
    parseReference (str "~lua/f.lua{A=b=c, B = 2 ,=3,C,A=9}")
    = (Some {| filePath := str "lua/f.lua"; variables := vars |},
       [InvalidVariablePair (str "~lua/f.lua{A=b=c, B = 2 ,=3,C,A=9}") (str "=3");
        InvalidVariablePair (str "~lua/f.lua{A=b=c, B = 2 ,=3,C,A=9}") (str "C")])
    /\ vars !! str "A" = Some (str "9")
    /\ vars !! str "B" = Some (str "2")
    /\ vars !! str "C" = None.
Proof.
  destruct (parseReference_variable_list (str "lua/f.lua")
              (str "A=b=c, B = 2 ,=3,C,A=9")) as [(vars & Hr & Hlast & Hnone) _].
  - discriminate.
  - by_evaluation.
  - discriminate.
  - by_evaluation.
  - exists vars. split; [exact Hr|]. split; [|split].
    + apply (Hlast (str "A") (str "9")
               [(str "A", str "b"); (str "B", str "2")] []).
      * discriminate.
      * vm_compute. reflexivity.
      * apply not_elem_of_nil.
    + apply (Hlast (str "B") (str "2")
               [(str "A", str "b")] [(str "A", str "9")]).
      * discriminate.
      * vm_compute. reflexivity.
      * by_evaluation.
    + apply Hnone. by_evaluation.
Defined.

(** C3 (counterexample). In [~f{A=b=c}] everything after the first equals
    sign of the pair is [b=c]; the value recorded under [A] is [b]. *)
Lemma parseReference_value_after_second_equals :
  parseReference (str "~f{A=b=c}")
  = (Some {| filePath := str "f"; variables := {[ str "A" := str "b" ]} |}, [])
  /\ ({[ str "A" := str "b" ]} : gmap jsstring jsstring) !! str "A"
     <> Some (str "b=c").
Proof.
  split; [vm_compute; reflexivity|].
  rewrite lookup_singleton_eq. discriminate.
Qed.

(** ** The command builder *)

Lemma split_nonempty (sep : N) (s : jsstring) : split sep s <> [].
Proof.
  destruct s as [|c t]; simpl; [done|].
  destruct (c =? sep); [done|]. by destruct (split sep t).
Qed.

Lemma split_app_sep (sep : N) (a b : jsstring) :
  split sep (a ++ sep :: b) = split sep a ++ split sep b.
Proof.
  induction a as [|x t IH]; simpl.
  - by rewrite N.eqb_refl.
  - destruct (x =? sep); [by rewrite IH|].
    rewrite IH. pose proof (split_nonempty sep t) as Hne.
    by destruct (split sep t).
Qed.

(** The lines of a fragment are lines of the text it is joined into. *)
Lemma split_join_elem (g : list jsstring) (f line : jsstring) :
  f ∈ g -> line ∈ split 10 f -> line ∈ split 10 (join Builder.LF g).
Proof.
  intros Hf Hl. induction g as [|x r IH]; [by apply elem_of_nil in Hf|].
  destruct r as [|y r'].
  - apply list_elem_of_singleton in Hf as ->. done.
  - change (join Builder.LF (x :: y :: r'))
      with (x ++ 10 :: join Builder.LF (y :: r')).
    rewrite split_app_sep. apply elem_of_app.
    apply elem_of_cons in Hf as [->|Hf]; [by left|right; by apply IH].
Qed.

Lemma digitsOf_digits (fuel : nat) (n : Z) (acc : jsstring) :
  forallb isDigit acc = true ->
  forallb isDigit (Number.digitsOf fuel n acc) = true.
Proof.
  revert n acc. induction fuel as [|fuel IH]; intros n acc Hacc; [done|].
  cbn [Number.digitsOf].
  assert (Hd : forallb isDigit (Z.to_N (48 + n mod 10) :: acc) = true).
  { cbn [forallb]. rewrite Hacc, andb_true_r. unfold isDigit.
    pose proof (Z.mod_pos_bound n 10 eq_refl).
    apply andb_true_intro. split; apply N.leb_le; lia. }
  destruct (n <? 10)%Z; [done|by apply IH].
Qed.

Lemma decimalDigits_digits (n : Z) :
  forallb isDigit (Number.decimalDigits n) = true.
Proof. by apply digitsOf_digits. Qed.

Lemma trimStart_head (c : N) (s : jsstring) :
  isWhiteSpace c = false -> trimStart (c :: s) = c :: s.
Proof. intros Hc. simpl. by rewrite Hc. Qed.

Lemma trimStart_fixed_app (s t : jsstring) :
  s <> [] -> trimStart s = s -> trimStart (s ++ t) = s ++ t.
Proof.
  destruct s as [|c s]; [done|]. intros _ Hs. simpl in *.
  destruct (isWhiteSpace c) eqn:Hc; [|done].
  exfalso. assert (Hlen : length (trimStart s) = S (length s)) by by rewrite Hs.
  assert (Hle : forall u, (length (trimStart u) <= length u)%nat).
  { clear. induction u as [|x u IH]; simpl; [lia|].
    destruct (isWhiteSpace x); simpl; lia. }
  specialize (Hle s). lia.
Qed.

Lemma trimEnd_fixed_app (p s : jsstring) :
  s <> [] -> trimEnd s = s -> trimEnd (p ++ s) = p ++ s.
Proof.
  unfold trimEnd. intros Hne Hs.
  assert (Hr : trimStart (rev s) = rev s).
  { rewrite <- (rev_involutive (trimStart (rev s))). by rewrite Hs. }
  rewrite rev_app_distr, trimStart_fixed_app; [|by destruct s using rev_ind; [|rewrite rev_app_distr]|done].
  by rewrite <- rev_app_distr, rev_involutive.
Qed.

Lemma removeFirst_prefix (p s : jsstring) :
  Builder.removeFirst p (p ++ s) = s.
Proof.
  destruct (p ++ s) as [|c t] eqn:He.
  - apply app_eq_nil in He as [-> ->]. done.
  - cbn [Builder.removeFirst]. rewrite <- He, startsWith_app. by rewrite drop_app_length.
Qed.

(** Stripping the comment marker and the literal [Source: ] from the
    annotation line gives back the token. *)
Lemma recoverReference_annotationLine (ref : jsstring) :
  ref <> [] -> trimEnd ref = ref ->
  Builder.recoverReference (Builder.annotationLine ref) = ref.
Proof.
  intros Hne Ht. unfold Builder.recoverReference, Builder.annotationLine.
  change (Builder.stripCommentPrefix (str "-- Source: " ++ ref))
    with (str " Source: " ++ ref).
  unfold trim.
  change (trimStart (str " Source: " ++ ref)) with (str "Source: " ++ ref).
  rewrite trimEnd_fixed_app by done. apply removeFirst_prefix.
Qed.

Lemma parseReference_some_prefix (ref : jsstring) (parsed : ParsedReference)
    (log : list warning) :
  parseReference ref = (Some parsed, log) -> startsWith (str "~") ref = true.
Proof.
  unfold parseReference. destruct (startsWith (str "~") ref); [done|].
  simpl. discriminate.
Qed.

Section BuilderProperties.

Variable nativeSource : jsstring -> jsstring.
Variable MAX_COMMAND_LENGTH : nat.
Variable MAX_SLOTS_PER_TYPE : nat.
Variable BASE_COMMANDS : list jsstring.
Variable BASE_TWEAKS : Builder.TweakValue.
Variable CONFIGURATION_MAPPING
  : jsstring -> jsstring -> option Builder.TweakValue.
Variable encode : jsstring -> jsstring.

Local Abbreviation fits := (Builder.fits MAX_COMMAND_LENGTH).
Local Abbreviation slotCommand := (Builder.slotCommand encode).
Local Abbreviation packFrom := (Builder.packFrom MAX_COMMAND_LENGTH encode).
Local Abbreviation pack :=
  (Builder.pack MAX_COMMAND_LENGTH MAX_SLOTS_PER_TYPE encode).
Local Abbreviation mapToTweaks :=
  (Builder.mapToTweaks BASE_COMMANDS BASE_TWEAKS CONFIGURATION_MAPPING).
Local Abbreviation resolveAll := (Builder.resolveAll nativeSource).
Local Abbreviation packTweaks :=
  (Builder.packTweaks nativeSource MAX_COMMAND_LENGTH MAX_SLOTS_PER_TYPE
     encode).
Local Abbreviation groupSections := (Builder.groupSections MAX_COMMAND_LENGTH).
Local Abbreviation buildLobbySections :=
  (Builder.buildLobbySections nativeSource MAX_COMMAND_LENGTH
     MAX_SLOTS_PER_TYPE BASE_COMMANDS BASE_TWEAKS CONFIGURATION_MAPPING
     encode).

(** The equations of the packing loop. *)
Lemma packFrom_nil (category : jsstring) (current : list jsstring)
    (index : nat) :
  packFrom category [] current index
  = match current with
    | [] => Some []
    | _ => Some [slotCommand category (Some index) current]
    end.
Proof. reflexivity. Qed.

Lemma packFrom_cons (category f : jsstring) (rest current : list jsstring)
    (index : nat) :
  packFrom category (f :: rest) current index
  = if fits (slotCommand category (Some index) (current ++ [f])) then
      packFrom category rest (current ++ [f]) index
    else
      match current with
      | [] => None
      | _ =>
          if fits (slotCommand category (Some (S index)) [f]) then
            option_map (cons (slotCommand category (Some index) current))
              (packFrom category rest [f] (S index))
          else None
      end.
Proof. reflexivity. Qed.

Lemma groupSections_cons (c : jsstring) (rest : list jsstring)
    (current : option jsstring) :
  groupSections (c :: rest) current
  = match current with
    | None => groupSections rest (Some c)
    | Some s =>
        if fits (s ++ Builder.LF ++ c) then
          groupSections rest (Some (s ++ Builder.LF ++ c))
        else s :: groupSections rest (Some c)
    end.
Proof. reflexivity. Qed.

(** *** The length invariant *)

Lemma packFrom_fits (category : jsstring) (fragments current : list jsstring)
    (index : nat) (slots : list jsstring) :
  packFrom category fragments current index = Some slots ->
  (current = [] \/ fits (slotCommand category (Some index) current) = true) ->
  Forall (fun c => fits c = true) slots.
Proof.
  revert current index slots.
  induction fragments as [|f rest IH]; intros current index slots Hp Hc.
  - rewrite packFrom_nil in Hp. destruct current as [|c0 cs].
    + injection Hp as <-. constructor.
    + injection Hp as <-. destruct Hc as [Hc|Hc]; [done|].
      constructor; [exact Hc|constructor].
  - rewrite packFrom_cons in Hp.
    destruct (fits (slotCommand category (Some index) (current ++ [f])))
      eqn:Hf.
    + eapply IH; [exact Hp|]. right. exact Hf.
    + destruct current as [|c0 cs]; [done|].
      destruct (fits (slotCommand category (Some (S index)) [f])) eqn:Hf1;
        [|done].
      destruct (packFrom category rest [f] (S index)) as [slots'|] eqn:Hr;
        [|done].
      injection Hp as <-. destruct Hc as [Hc|Hc]; [done|].
      constructor; [exact Hc|].
      eapply IH; [exact Hr|]. right. exact Hf1.
Qed.

Lemma pack_fits (category : jsstring) (fragments slots : list jsstring) :
  pack category fragments = Some slots ->
  Forall (fun c => fits c = true) slots.
Proof.
  unfold Builder.pack. intros Hp.
  destruct (fits (slotCommand category None fragments)) eqn:Hs.
  - injection Hp as <-. constructor; [exact Hs|constructor].
  - destruct (packFrom category fragments [] 0) as [slots'|] eqn:Hr;
      [|done].
    destruct (Nat.leb _ _); [|done]. injection Hp as <-.
    eapply packFrom_fits; [exact Hr|]. by left.
Qed.

Lemma groupSections_fits (flat : list jsstring) (current : option jsstring) :
  Forall (fun c => fits c = true) flat ->
  (forall s, current = Some s -> fits s = true) ->
  Forall (fun c => fits c = true) (groupSections flat current).
Proof.
  revert current. induction flat as [|c rest IH]; intros current Hflat Hc.
  - destruct current as [s|]; cbn; [|constructor].
    constructor; [by apply Hc|constructor].
  - apply Forall_cons in Hflat as [Hc0 Hrest]. rewrite groupSections_cons.
    destruct current as [s|].
    + destruct (fits (s ++ Builder.LF ++ c)) eqn:Hf.
      * apply IH; [done|]. by intros ? [= <-].
      * constructor; [by apply Hc|]. apply IH; [done|]. by intros ? [= <-].
    + apply IH; [done|]. by intros ? [= <-].
Qed.


(** *** The source references *)

Lemma packFrom_covers (category : jsstring)
    (fragments current : list jsstring) (index : nat)
    (slots : list jsstring) (f : jsstring) :
  packFrom category fragments current index = Some slots ->
  f ∈ current ++ fragments ->
  exists i g, slotCommand category (Some i) g ∈ slots /\ f ∈ g.
Proof.
  revert current index slots.
  induction fragments as [|f0 rest IH]; intros current index slots Hp Hf.
  - rewrite packFrom_nil in Hp. rewrite app_nil_r in Hf.
    destruct current as [|c0 cs]; [by apply elem_of_nil in Hf|].
    injection Hp as <-. exists index, (c0 :: cs).
    split; [apply list_elem_of_here|done].
  - rewrite packFrom_cons in Hp.
    destruct (fits (slotCommand category (Some index) (current ++ [f0]))).
    + eapply IH; [exact Hp|]. by rewrite <- app_assoc.
    + destruct current as [|c0 cs]; [done|].
      destruct (fits (slotCommand category (Some (S index)) [f0])); [|done].
      destruct (packFrom category rest [f0] (S index)) as [slots'|] eqn:Hr;
        [|done].
      injection Hp as <-. apply elem_of_app in Hf as [Hf|Hf].
      * exists index, (c0 :: cs). split; [apply list_elem_of_here|done].
      * destruct (IH [f0] (S index) slots' Hr Hf) as (i & g & Hs & Hg).
        exists i, g. split; [by apply list_elem_of_further|done].
Qed.

Lemma pack_covers (category : jsstring) (fragments slots : list jsstring)
    (f : jsstring) :
  pack category fragments = Some slots ->
  f ∈ fragments ->
  exists index g, slotCommand category index g ∈ slots /\ f ∈ g.
Proof.
  unfold Builder.pack. intros Hp Hf.
  destruct (fits (slotCommand category None fragments)).
  - injection Hp as <-. exists None, fragments.
    split; [apply list_elem_of_here|done].
  - destruct (packFrom category fragments [] 0) as [slots'|] eqn:Hr;
      [|done].
    destruct (Nat.leb _ _); [|done]. injection Hp as <-.
    destruct (packFrom_covers category fragments [] 0 slots' f Hr Hf)
      as (i & g & Hs & Hg).
    by exists (Some i), g.
Qed.

Lemma resolveAll_elem (refs : list jsstring)
    (bundle : gmap jsstring jsstring) (ref sourceText : jsstring) :
  ref ∈ refs ->
  fst (processLuaReference nativeSource ref bundle) = Some sourceText ->
  Builder.annotate sourceText ref ∈ resolveAll refs bundle.
Proof.
  intros Hin Hr. unfold Builder.resolveAll.
  apply list_elem_of_omap. exists ref. split; [done|]. by rewrite Hr.
Qed.

(** The pattern of the test strips exactly the command word, the category
    and the slot number. *)
Lemma afterSlotPrefix_slotCommand (category : jsstring)
    (index : option nat) (g : list jsstring) :
  Builder.afterSlotPrefix category (slotCommand category index g)
  = Some (encode (join Builder.LF g)).
Proof.
  unfold Builder.afterSlotPrefix, Builder.slotCommand.
  set (idx := match index with
              | Some i => Number.decimalDigits (Z.of_nat i)
              | None => []
              end).
  assert (Hidx : forallb isDigit idx = true).
  { unfold idx. destruct index; [apply decimalDigits_digits|done]. }
  rewrite (app_assoc (str "!bset ") category).
  rewrite startsWith_app, drop_app_length.
  change (str " " ++ encode (join Builder.LF g))
    with (32 :: encode (join Builder.LF g)).
  rewrite span_stop by done. done.
Qed.

Lemma slotPayload_slotCommand (category : jsstring) (index : option nat)
    (g : list jsstring) :
  category = str "tweakdefs" \/ category = str "tweakunits" ->
  Builder.slotPayload (slotCommand category index g)
  = encode (join Builder.LF g).
Proof.
  intros [->| ->]; unfold Builder.slotPayload.
  - by rewrite afterSlotPrefix_slotCommand.
  - assert (Hn : Builder.afterSlotPrefix (str "tweakdefs")
                   (slotCommand (str "tweakunits") index g) = None)
      by reflexivity.
    rewrite Hn. by rewrite afterSlotPrefix_slotCommand.
Qed.

Variable decode : jsstring -> jsstring.
Hypothesis decode_encode : forall s, decode (encode s) = s.

(** The recovery on the slot a fragment was packed into. *)
Lemma sourceRefs_slot (category : jsstring) (index : option nat)
    (g : list jsstring) (ref sourceText : jsstring) :
  category = str "tweakdefs" \/ category = str "tweakunits" ->
  Builder.annotate sourceText ref ∈ g ->
  10 ∉ ref -> ref <> [] -> trimEnd ref = ref ->
  let slot := slotCommand category index g in
  Builder.annotationLine ref ∈ split 10 (decode (Builder.slotPayload slot))
  /\ startsWith (str "-- Source: ") (Builder.annotationLine ref) = true
  /\ Builder.recoverReference (Builder.annotationLine ref) = ref
  /\ ref ∈ Builder.sourceRefs decode slot.
Proof.
  intros Hcat Hg Hlf Hne Htrim slot.
  assert (Hline : Builder.annotationLine ref
                  ∈ split 10 (decode (Builder.slotPayload slot))).
  { unfold slot. rewrite slotPayload_slotCommand, decode_encode by done.
    eapply split_join_elem; [exact Hg|].
    unfold Builder.annotate.
    change (Builder.LF ++ sourceText) with (10 :: sourceText).
    rewrite split_app_sep, split_without.
    - apply elem_of_app. left. apply list_elem_of_here.
    - unfold Builder.annotationLine. intros [H|H]%elem_of_app; [|done].
      revert H. by_evaluation. }
  assert (Hstart : startsWith (str "-- Source: ") (Builder.annotationLine ref)
                   = true) by apply startsWith_app.
  assert (Hrec : Builder.recoverReference (Builder.annotationLine ref) = ref)
    by by apply recoverReference_annotationLine.
  split; [exact Hline|]. split; [exact Hstart|]. split; [exact Hrec|].
  unfold Builder.sourceRefs. rewrite <- Hrec at 1.
  apply list_elem_of_fmap_2. apply list_elem_of_filter. by split.
Qed.


End BuilderProperties.


(** ** The instances on the small configuration *)

Lemma example_packTweaks :
  Builder.packTweaks Example.nativeSource Example.MAX_COMMAND_LENGTH
    Example.MAX_SLOTS_PER_TYPE Example.encode Example.tweaks Example.bundle
  = Some (Example.defs, Example.units).
Proof. vm_compute. reflexivity. Qed.

Lemma example_buildLobbySections :
  Builder.buildLobbySections Example.nativeSource Example.MAX_COMMAND_LENGTH
    Example.MAX_SLOTS_PER_TYPE Example.BASE_COMMANDS Example.BASE_TWEAKS
    Example.CONFIGURATION_MAPPING Example.encode Example.configuration
    Example.bundle
  = Some Example.sections.
Proof. vm_compute. reflexivity. Qed.



(** * Further properties of the code *)

(** ** Strings *)

Lemma span_spec (p : N -> bool) (s a b : jsstring) :
  span p s = (a, b) ->
  s = a ++ b /\ forallb p a = true
  /\ match b with c :: _ => p c = false | [] => True end.
Proof.
  revert a b. induction s as [|c t IH]; intros a b; simpl.
  - intros [= <- <-]. done.
  - destruct (p c) eqn:Hc.
    + destruct (span p t) as [a' b'] eqn:Hs. intros [= <- <-].
      destruct (IH a' b' eq_refl) as (-> & Ha & Hb).
      split; [done|]. split; [|done]. simpl. by rewrite Hc, Ha.
    + intros [= <- <-]. split; [done|]. split; [done|]. exact Hc.
Qed.

Lemma forallb_differs_inv (c : N) (s : jsstring) :
  forallb (fun x => negb (x =? c)) s = true -> c ∉ s.
Proof.
  induction s as [|x t IH]; simpl; [intros _; apply not_elem_of_nil|].
  intros [Hx Ht]%andb_prop. apply not_elem_of_cons. split; [|by apply IH].
  apply negb_true_iff, N.eqb_neq in Hx. congruence.
Qed.

(** The pieces of a split hold no separator, and only code units of the
    string. *)
Lemma split_elem (sep : N) (s x : jsstring) :
  x ∈ split sep s -> (sep ∉ x) /\ (forall c, c ∈ x -> c ∈ s).
Proof.
  revert x. induction s as [|c t IH]; intros x; simpl.
  - intros ->%list_elem_of_singleton. split; [apply not_elem_of_nil|done].
  - destruct (N.eqb_spec c sep) as [->|Hne].
    + intros [->|Hx]%elem_of_cons.
      * split; [apply not_elem_of_nil|]. by intros d Hd%elem_of_nil.
      * destruct (IH x Hx) as [Hs Hc]. split; [done|].
        intros d Hd. apply list_elem_of_further. by apply Hc.
    + pose proof (split_nonempty sep t) as Hnil.
      destruct (split sep t) as [|h r]; [done|].
      intros [->|Hx]%elem_of_cons.
      * destruct (IH h (list_elem_of_here _ _)) as [Hs Hc].
        split.
        -- apply not_elem_of_cons. split; [congruence|done].
        -- intros d [->|Hd]%elem_of_cons; [apply list_elem_of_here|].
           apply list_elem_of_further. by apply Hc.
      * destruct (IH x (list_elem_of_further _ _ _ Hx)) as [Hs Hc].
        split; [done|]. intros d Hd. apply list_elem_of_further. by apply Hc.
Qed.

(** [trimStart] drops a prefix and leaves nothing, or a string that starts
    with a code unit that is no white space. *)
Lemma trimStart_suffix (s : jsstring) : exists pre, s = pre ++ trimStart s.
Proof.
  induction s as [|c t [pre IH]]; [by exists []|]. simpl.
  destruct (isWhiteSpace c); [|by exists []].
  exists (c :: pre). simpl. by rewrite <- IH.
Qed.

Lemma trimStart_head_inv (s : jsstring) :
  match trimStart s with c :: _ => isWhiteSpace c = false | [] => True end.
Proof.
  induction s as [|c t IH]; simpl; [done|].
  destruct (isWhiteSpace c) eqn:Hc; [exact IH|exact Hc].
Qed.

Lemma trimStart_fixed (s : jsstring) :
  match s with c :: _ => isWhiteSpace c = false | [] => True end ->
  trimStart s = s.
Proof. destruct s as [|c t]; [done|]. simpl. by intros ->. Qed.

Lemma trimStart_idemp (s : jsstring) : trimStart (trimStart s) = trimStart s.
Proof. apply trimStart_fixed, trimStart_head_inv. Qed.

Lemma trimEnd_prefix (s : jsstring) : exists post, s = trimEnd s ++ post.
Proof.
  unfold trimEnd. destruct (trimStart_suffix (rev s)) as [pre Hp].
  exists (rev pre). rewrite <- rev_app_distr, <- Hp. by rewrite rev_involutive.
Qed.

Lemma trimEnd_idemp (s : jsstring) : trimEnd (trimEnd s) = trimEnd s.
Proof. unfold trimEnd. by rewrite rev_involutive, trimStart_idemp. Qed.

Lemma trim_elem (s : jsstring) (c : N) : c ∈ trim s -> c ∈ s.
Proof.
  unfold trim. intros Hc.
  destruct (trimStart_suffix s) as [pre Hp].
  destruct (trimEnd_prefix (trimStart s)) as [post Hq].
  rewrite Hp, Hq. apply elem_of_app. right. apply elem_of_app. by left.
Qed.

(** Trimming a trimmed string changes nothing. *)
Lemma trim_idemp (s : jsstring) : trim (trim s) = trim s.
Proof.
  unfold trim at 1.
  assert (Hs : trimStart (trim s) = trim s).
  { apply trimStart_fixed. unfold trim.
    pose proof (trimStart_head_inv s) as Hh.
    destruct (trimEnd_prefix (trimStart s)) as [post Hq].
    destruct (trimEnd (trimStart s)) as [|c t]; [done|].
    rewrite Hq in Hh. exact Hh. }
  rewrite Hs. unfold trim. apply trimEnd_idemp.
Qed.

(** ** parseReference: the tokens it accepts *)

Lemma matchReference_plain (path : jsstring) :
  path <> [] -> chr "{" ∉ path ->
  matchReference (str "~" ++ path) = Some (path, None).
Proof.
  intros Hp Hb. change (str "~") with [chr "~"].
  unfold matchReference. cbn [app]. rewrite N.eqb_refl.
  rewrite span_all by by apply forallb_differs. by destruct path.
Qed.

Lemma matchReference_inv (ref path : jsstring) (vars : option jsstring) :
  matchReference ref = Some (path, vars) ->
  path <> [] /\ (chr "{" ∉ path)
  /\ match vars with
     | None => ref = str "~" ++ path
     | Some vs =>
         ref = str "~" ++ path ++ str "{" ++ vs ++ str "}"
         /\ vs <> [] /\ chr "}" ∉ vs
     end.
Proof.
  unfold matchReference. destruct ref as [|c rest]; [done|].
  destruct (N.eqb_spec c (chr "~")) as [->|]; [|done].
  destruct (span _ rest) as [p tail] eqn:Hs.
  apply span_spec in Hs as (-> & Hp & Ht).
  apply forallb_differs_inv in Hp.
  destruct p as [|p0 p']; [done|].
  destruct tail as [|b body].
  - intros [= <- <-]. rewrite app_nil_r. done.
  - apply negb_false_iff, N.eqb_eq in Ht as ->.
    destruct (span _ body) as [vs close] eqn:Hv.
    apply span_spec in Hv as (-> & Hvs & Hc).
    apply forallb_differs_inv in Hvs.
    destruct vs as [|v0 vs']; [done|].
    destruct close as [|d [|? ?]]; [done| |done].
    apply negb_false_iff, N.eqb_eq in Hc as ->.
    intros [= <- <-]. done.
Qed.

(** X1. [parseReference] accepts exactly the tokens [~path] and
    [~path{vars}] in which the path is not empty and holds no opening brace,
    and the variable list is not empty and holds no closing brace; a token
    without a variable list parses to its path and the empty map, without a
    warning. *)
Theorem parseReference_accepts (ref : jsstring) :
  ((exists parsed log, parseReference ref = (Some parsed, log))
   <-> (exists path,
          ref = str "~" ++ path /\ path <> [] /\ chr "{" ∉ path)
       \/ (exists path vs,
             ref = str "~" ++ path ++ str "{" ++ vs ++ str "}"
             /\ path <> [] /\ (chr "{" ∉ path)
             /\ vs <> [] /\ (chr "}" ∉ vs)))
  /\ (forall path,
        ref = str "~" ++ path -> path <> [] -> chr "{" ∉ path ->
        parseReference ref
        = (Some {| filePath := path; variables := ∅ |}, [])).
Proof.
  assert (Hplain : forall path,
            ref = str "~" ++ path -> path <> [] -> chr "{" ∉ path ->
            parseReference ref
            = (Some {| filePath := path; variables := ∅ |}, [])).
  { intros path -> Hp Hb. unfold parseReference.
    rewrite startsWith_app. cbn [negb].
    by rewrite matchReference_plain. }
  split; [|exact Hplain]. split.
  - intros (parsed & log & Hr). unfold parseReference in Hr.
    destruct (startsWith (str "~") ref); [|done]. cbn [negb] in Hr.
    destruct (matchReference ref) as [[path vars]|] eqn:Hm; [|done].
    apply matchReference_inv in Hm as (Hp & Hb & Hv).
    destruct vars as [vs|].
    + destruct Hv as (-> & Hvs & Hc). right. by exists path, vs.
    + left. by exists path.
  - intros [(path & Href & Hp & Hb)|(path & vs & -> & Hp & Hb & Hvs & Hc)].
    + eexists _, _. by apply Hplain.
    + destruct (parseReference_variable_list path vs Hp Hb Hvs Hc)
        as [(vars & Hr & _) _].
      eexists _, _. exact Hr.
Qed.

(** ** parseReference: what the variable map holds *)

Lemma foldl_record_inv (kvs : list (jsstring * jsstring))
    (variables : gmap jsstring jsstring) (key value : jsstring) :
  foldl record variables kvs !! key = Some value ->
  variables !! key = Some value
  \/ ((key, value) ∈ kvs /\ key <> str "__proto__").
Proof.
  revert variables. induction kvs as [|[k v] kvs IH]; intros m; cbn [foldl].
  - by left.
  - intros Hl. destruct (IH _ Hl) as [Hm|[Hin Hk]].
    + unfold record, Obj.set in Hm. cbn [fst snd] in Hm.
      case_bool_decide as Hp; [by left|].
      destruct (decide (k = key)) as [->|Hne].
      * rewrite lookup_insert_eq in Hm. injection Hm as ->.
        right. split; [apply list_elem_of_here|done].
      * rewrite lookup_insert_ne in Hm by done. by left.
    + right. split; [by apply list_elem_of_further|done].
Qed.

Lemma parsePair_inv (p key value : jsstring) :
  parsePair p = Some (key, value) ->
  exists k v, k ∈ split (chr "=") p /\ v ∈ split (chr "=") p
              /\ key = trim k /\ value = trim v /\ key <> [].
Proof.
  unfold parsePair.
  destruct (split (chr "=") p) as [|k [|v rest]]; [done|done|].
  cbn [map]. destruct (trim k) as [|c t] eqn:Hk; [done|].
  intros [= <- <-]. exists k, v.
  split; [apply list_elem_of_here|].
  split; [apply list_elem_of_further, list_elem_of_here|].
  by rewrite Hk.
Qed.

Lemma parseReference_variables (ref : jsstring) (parsed : ParsedReference)
    (log : list warning) :
  parseReference ref = (Some parsed, log) ->
  variables parsed = ∅
  \/ exists vs,
       (chr "}" ∉ vs)
       /\ variables parsed
          = foldl record ∅ (recordedPairs (split (chr ",") vs)).
Proof.
  unfold parseReference.
  destruct (startsWith (str "~") ref); [|done]. cbn [negb].
  destruct (matchReference ref) as [[path vars]|] eqn:Hm; [|done].
  apply matchReference_inv in Hm as (_ & _ & Hv).
  destruct vars as [[|c vs]|].
  - intros [= <- _]. by left.
  - destruct Hv as (_ & _ & Hc). rewrite parsePairs_fold.
    unfold bind, ret. intros [= <- _]. right. by exists (c :: vs).
  - intros [= <- _]. by left.
Qed.

(** X2. Whatever the token, a key of the parsed variable map is never
    empty and never [__proto__]; keys and values carry no white space at
    either end and hold no equals sign, comma or closing brace. *)
Theorem parseReference_recorded (ref : jsstring) (parsed : ParsedReference)
    (log : list warning) (key value : jsstring) :
  parseReference ref = (Some parsed, log) ->
  variables parsed !! key = Some value ->
  key <> [] /\ key <> str "__proto__"
  /\ trim key = key /\ trim value = value
  /\ (forall c, c ∈ key ++ value ->
        c <> chr "=" /\ c <> chr "," /\ c <> chr "}").
Proof.
  intros Hr Hl.
  destruct (parseReference_variables ref parsed log Hr) as [He|(vs & Hc & Hv)].
  - rewrite He in Hl. by rewrite lookup_empty in Hl.
  - rewrite Hv in Hl. apply foldl_record_inv in Hl as [Hl|[Hin Hk]];
      [by rewrite lookup_empty in Hl|].
    unfold recordedPairs in Hin. apply list_elem_of_omap in Hin as (p & Hp & Hpp).
    apply parsePair_inv in Hpp as (k & v & Hks & Hvs & -> & -> & Hne).
    destruct (split_elem _ _ _ Hp) as [Hcomma Hsub].
    destruct (split_elem _ _ _ Hks) as [Hkeq Hksub].
    destruct (split_elem _ _ _ Hvs) as [Hveq Hvsub].
    split; [done|]. split; [done|].
    split; [apply trim_idemp|]. split; [apply trim_idemp|].
    intros c [Hck|Hcv]%elem_of_app.
    + apply trim_elem in Hck. repeat split; intros ->.
      * done.
      * by apply Hcomma, Hksub.
      * by apply Hc, Hsub, Hksub.
    + apply trim_elem in Hcv. repeat split; intros ->.
      * done.
      * by apply Hcomma, Hvsub.
      * by apply Hc, Hsub, Hvsub.
Qed.

(** X2 (instance). *)
Lemma parseReference_recorded_witness :
  str "B" <> [] /\ str "B" <> str "__proto__"
  /\ trim (str "B") = str "B" /\ trim (str "2") = str "2"
  /\ (forall c, c ∈ str "B" ++ str "2" ->
        c <> chr "=" /\ c <> chr "," /\ c <> chr "}").
Proof.
  apply (parseReference_recorded (str "~lua/f.lua{A=1, B = 2 }")
           {| filePath := str "lua/f.lua";
              variables := {[ str "A" := str "1"; str "B" := str "2" ]} |}
           []).
  - vm_compute. reflexivity.
  - vm_compute. reflexivity.
Defined.

(** ** evaluateExpression: results and warnings *)

(** X3. Whatever the expression, the evaluator either returns the decimal
    text of a number without a warning, or returns its argument unchanged
    with exactly one warning: a warning never comes with a changed text. *)
Theorem evaluateExpression_outcomes (expression : jsstring) :
  (exists x, evaluateExpression expression = (Number.toString x, []))
  \/ (exists w, evaluateExpression expression = (expression, [w])).
Proof.
  unfold evaluateExpression.
  destruct (isSafeExpression expression); cbn [negb].
  - destruct (if includes (chr "/") (trim expression)
              then operands (chr "/") (trim expression) else None)
      as [[a b]|].
    + left. by eexists.
    + destruct (if includes (chr "*") (trim expression)
                then operands (chr "*") (trim expression) else None)
        as [[a b]|].
      * left. by eexists.
      * right. by eexists.
  - right. by eexists.
Qed.

(** X4. A division whose divisor reads as zero is evaluated all the same:
    with a non-zero dividend the text that replaces the expression is
    [Infinity] or [-Infinity], with a zero dividend it is [NaN]. *)
Theorem evaluateExpression_zero_divisor (expression a b : jsstring) :
  isSafeExpression expression = true ->
  split (chr "/") (trim expression) = [a; b] ->
  (exists s, Number.parseFloat (trim b) = S754_zero s) ->
  (forall sa ma ea, Number.parseFloat (trim a) = S754_finite sa ma ea ->
     exists negative,
       evaluateExpression expression
       = ((if negative : bool then str "-" else []) ++ str "Infinity", []))
  /\ (forall sa, Number.parseFloat (trim a) = S754_zero sa ->
        evaluateExpression expression = (str "NaN", [])).
Proof.
  intros Hs Hsp [sb Hb].
  assert (Hi : includes (chr "/") (trim expression) = true).
  { unfold includes. destruct (existsb _ _) eqn:He; [done|].
    assert (Hn : chr "/" ∉ trim expression).
    { intros Hin. apply list_elem_of_In in Hin.
      assert (Ht : existsb (N.eqb (chr "/")) (trim expression) = true)
        by (apply existsb_exists; exists (chr "/"); split;
            [done|apply N.eqb_refl]).
      congruence. }
    rewrite split_without in Hsp by done. discriminate. }
  split.
  - intros sa ma ea Ha. exists (xorb sa sb).
    rewrite (evaluateExpression_division expression
               (S754_finite sa ma ea) (S754_zero sb) Hs Hi).
    + done.
    + unfold operands. rewrite Hsp. cbn [map]. by rewrite Ha, Hb.
  - intros sa Ha.
    rewrite (evaluateExpression_division expression
               (S754_zero sa) (S754_zero sb) Hs Hi).
    + done.
    + unfold operands. rewrite Hsp. cbn [map]. by rewrite Ha, Hb.
Qed.

(** X4 (instance): [1 / 0] and [0 / 0]. *)
Lemma evaluateExpression_zero_divisor_witness :
  (exists negative,
     evaluateExpression (str "1 / 0")
     = ((if negative : bool then str "-" else []) ++ str "Infinity", []))
  /\ evaluateExpression (str "1 / 0") = (str "Infinity", []).
Proof.
  split.
  - destruct (evaluateExpression_zero_divisor (str "1 / 0") (str "1 ")
                (str " 0")) as [Hfin _].
    + vm_compute. reflexivity.
    + vm_compute. reflexivity.
    + exists false. vm_compute. reflexivity.
    + apply (Hfin false 4503599627370496%positive (-52)%Z).
      vm_compute. reflexivity.
  - vm_compute. reflexivity.
Defined.

Lemma split_two_seps (sep : N) (a b c : jsstring) :
  exists x y z rest, split sep (a ++ sep :: b ++ sep :: c) = x :: y :: z :: rest.
Proof.
  rewrite split_app_sep, split_app_sep.
  pose proof (split_nonempty sep a) as Ha.
  pose proof (split_nonempty sep b) as Hb.
  pose proof (split_nonempty sep c) as Hc.
  destruct (split sep a) as [|a0 [|a1 [|a2 ar]]]; [done| | |];
    destruct (split sep b) as [|b0 [|b1 br]]; try done;
    destruct (split sep c) as [|c0 cr]; try done; cbn [app];
    by eexists _, _, _, _.
Qed.

(** X5. A chained division or multiplication is never evaluated: when the
    trimmed expression holds two or more slashes and no asterisk, or two or
    more asterisks and no slash, the expression comes back unchanged. *)
Theorem evaluateExpression_chained (expression a b c : jsstring) (op other : N) :
  (op = chr "/" /\ other = chr "*") \/ (op = chr "*" /\ other = chr "/") ->
  trim expression = a ++ op :: b ++ op :: c ->
  other ∉ trim expression ->
  fst (evaluateExpression expression) = expression.
Proof.
  intros Hop Ht Hother.
  assert (Hno : includes other (trim expression) = false).
  { unfold includes. destruct (existsb _ _) eqn:He; [|done].
    apply existsb_exists in He as (x & Hx & ->%N.eqb_eq).
    by apply list_elem_of_In in Hx. }
  assert (Hops : operands op (trim expression) = None).
  { unfold operands. rewrite Ht.
    destruct (split_two_seps op a b c) as (x & y & z & rest & ->). done. }
  unfold evaluateExpression.
  destruct (isSafeExpression expression); cbn [negb]; [|done].
  destruct Hop as [[-> ->]|[-> ->]]; rewrite Hno, Hops.
  - by destruct (includes (chr "/") (trim expression)).
  - by destruct (includes (chr "*") (trim expression)).
Qed.

(** X5 (instance): [8 / 4 / 2]. *)
Lemma evaluateExpression_chained_witness :
  fst (evaluateExpression (str "8 / 4 / 2")) = str "8 / 4 / 2".
Proof.
  apply (evaluateExpression_chained (str "8 / 4 / 2") (str "8 ") (str " 4 ")
           (str " 2") (chr "/") (chr "*")).
  - left. done.
  - vm_compute. reflexivity.
  - by_evaluation.
Defined.

(** ** interpolateTemplate: the two passes *)

Section Passes.

Variable nativeSource : jsstring -> jsstring.
Variable variables : gmap jsstring jsstring.

Local Abbreviation scan :=
  (replaceAll matchPlaceholder (substitute nativeSource variables)).

Lemma scan_no_dollar (s : jsstring) (st : gset jsstring * list warning) :
  chr "$" ∉ s -> scan s st = (s, st).
Proof.
  intros Hn. rewrite <- (app_nil_r s) at 1.
  rewrite (scan_copy nativeSource variables s [] st Hn).
  rewrite replaceAll_nil. by rewrite app_nil_r.
Qed.



End Passes.



Lemma matchGroup_inv (s m g rest : jsstring) :
  matchGroup s = Some (m, g, rest) ->
  s = m ++ rest /\ m = chr "(" :: g ++ [chr ")"].
Proof.
  destruct s as [|c t]; [done|]. unfold matchGroup.
  destruct (N.eqb_spec c (chr "(")) as [->|]; [|done].
  destruct (span notParen t) as [expression r] eqn:Hs.
  apply span_spec in Hs as (-> & _ & _).
  destruct expression as [|e0 expression]; [done|].
  destruct r as [|d r']; [done|].
  destruct (N.eqb_spec d (chr ")")) as [->|]; [|done].
  intros [= <- <- <-]. split; [|done].
  cbn [app]. by rewrite <- !app_assoc.
Qed.

Lemma hasOperator_app (a b : jsstring) :
  hasOperator (a ++ b) = hasOperator a || hasOperator b.
Proof. unfold hasOperator. apply existsb_app. Qed.

Lemma secondPass_bounded (n : nat) (s : jsstring) (log : list warning) :
  (length s <= n)%nat -> hasOperator s = false -> secondPass s log = (s, log).
Proof.
  unfold secondPass. revert s.
  induction n as [|n IH]; intros s Hl Hop.
  - destruct s; [by rewrite replaceAll_nil|simpl in Hl; lia].
  - destruct s as [|c t]; [by rewrite replaceAll_nil|].
    destruct (matchGroup (c :: t)) as [[[m g] rest]|] eqn:Hm.
    + rewrite (replaceAll_match _ _ matchGroup_shorter _ _ _ _ _ Hm).
      pose proof (matchGroup_shorter _ _ _ _ Hm) as Hlt.
      apply matchGroup_inv in Hm as [Hs ->].
      rewrite Hs in Hop. rewrite hasOperator_app in Hop.
      apply orb_false_elim in Hop as [Hg Hrest].
      change (chr "(" :: g ++ [chr ")"]) with ([chr "("] ++ g ++ [chr ")"]) in Hg.
      rewrite !hasOperator_app in Hg.
      apply orb_false_elim in Hg as [_ Hg].
      apply orb_false_elim in Hg as [Hg _].
      unfold evaluateGroup. rewrite Hg.
      rewrite IH by (try done; simpl in *; lia). by rewrite Hs.
    + rewrite (replaceAll_copy _ _ _ _ _ Hm).
      change (c :: t) with ([c] ++ t) in Hop. rewrite hasOperator_app in Hop.
      apply orb_false_elim in Hop as [_ Ht].
      rewrite IH by (try done; simpl in *; lia). done.
Qed.

(** X8. A text without any of the characters [+ - * /] passes the second
    pass unchanged and without a warning, whatever its parentheses. *)
Theorem secondPass_no_operator (s : jsstring) (log : list warning) :
  hasOperator s = false -> secondPass s log = (s, log).
Proof. by apply (secondPass_bounded (length s)). Qed.

(** X8 (instance): a call with parentheses and no operator. *)
Lemma secondPass_no_operator_witness :
  secondPass (str "unitDef.health = math.floor(x)") []
  = (str "unitDef.health = math.floor(x)", []).
Proof.
  apply (secondPass_no_operator (str "unitDef.health = math.floor(x)") []).
  reflexivity.
Defined.

(** X9. A template without a dollar sign and without any of the characters
    [+ - * /] is returned as it is; the only warning lists every key of the
    variable map as unused, and there is none when the map is empty. *)
Theorem interpolateTemplate_plain_text (nativeSource : jsstring -> jsstring)
    (template : jsstring) (variables : gmap jsstring jsstring) :
  chr "$" ∉ template -> hasOperator template = false ->
  interpolateTemplate nativeSource template variables
  = (template,
     if bool_decide (variables = ∅) then []
     else [UnusedVariables (dom variables)]).
Proof.
  intros Hd Hop. unfold interpolateTemplate, firstPass.
  rewrite scan_no_dollar by done.
  rewrite secondPass_no_operator by done.
  unfold Obj.keys. rewrite difference_empty_L.
  destruct (decide (variables = ∅)) as [->|Hne].
  - rewrite dom_empty_L. by rewrite !bool_decide_eq_true_2.
  - rewrite (bool_decide_eq_false_2 (variables = ∅)) by done.
    rewrite bool_decide_eq_false_2; [done|].
    intros He. by apply dom_empty_inv_L in He.
Qed.

(** X9 (instance). *)
Lemma interpolateTemplate_plain_text_witness :
  interpolateTemplate Example.nativeSource (str "x = f(1)")
    {[ str "A" := str "1" ]}
  = (str "x = f(1)",
     if bool_decide (({[ str "A" := str "1" ]} : gmap jsstring jsstring) = ∅)
     then [] else [UnusedVariables (dom ({[ str "A" := str "1" ]} : gmap jsstring jsstring))]).
Proof.
  apply (interpolateTemplate_plain_text Example.nativeSource (str "x = f(1)")
           {[ str "A" := str "1" ]}).
  - by_evaluation.
  - reflexivity.
Defined.

(** ** processLuaReference: null results and plain references *)

(** X10. The resolver returns null exactly when the token does not parse,
    or the bundle has no entry for the parsed path, or that entry is the
    empty string. *)
Theorem processLuaReference_null (nativeSource : jsstring -> jsstring)
    (ref : jsstring) (luaFileMap : gmap jsstring jsstring) :
  fst (processLuaReference nativeSource ref luaFileMap) = None
  <-> fst (parseReference ref) = None
      \/ exists parsed,
           fst (parseReference ref) = Some parsed
           /\ (luaFileMap !! filePath parsed = None
               \/ luaFileMap !! filePath parsed = Some []).
Proof.
  unfold processLuaReference.
  destruct (parseReference ref) as [[[path vars]|] log]; cbn [fst bind].
  - destruct (luaFileMap !! path) as [[|c t]|] eqn:Hl; cbn [filePath].
    + split; [|done]. intros _. right. eexists. split; [done|].
      cbn [filePath]. by right.
    + split.
      * destruct (bool_decide _); [done|].
        unfold bind, ret. by destruct (interpolateTemplate _ _ _).
      * intros [H|(parsed & [= <-] & [H|H])]; [done| |];
          cbn [filePath] in H; congruence.
    + split; [|done]. intros _. right. eexists. split; [done|].
      cbn [filePath]. by left.
  - split; [by left|done].
Qed.

(** X11. A token without a variable list resolves to the text the bundle
    holds for its path, as it stands: placeholders and parenthesised
    arithmetic in the file are left alone, and nothing is logged. *)
Theorem processLuaReference_verbatim (nativeSource : jsstring -> jsstring)
    (path template : jsstring) (luaFileMap : gmap jsstring jsstring) :
  path <> [] -> chr "{" ∉ path ->
  luaFileMap !! path = Some template -> template <> [] ->
  processLuaReference nativeSource (str "~" ++ path) luaFileMap
  = (Some template, []).
Proof.
  intros Hp Hb Hl Hne.
  destruct (parseReference_accepts (str "~" ++ path)) as [_ Hplain].
  apply (processLuaReference_plain nativeSource (str "~" ++ path)
           {| filePath := path; variables := ∅ |} [] luaFileMap template);
    [by apply Hplain|done|done|done].
Qed.

(** X11 (instance): the file holds a placeholder and a division. *)
Lemma processLuaReference_verbatim_witness :
  processLuaReference Example.nativeSource (str "~" ++ str "lua/t.lua")
    {[ str "lua/t.lua" := str "x = (1 / $N$)" ]}
  = (Some (str "x = (1 / $N$)"), []).
Proof.
  apply (processLuaReference_verbatim Example.nativeSource (str "lua/t.lua")
           (str "x = (1 / $N$)") {[ str "lua/t.lua" := str "x = (1 / $N$)" ]}).
  - discriminate.
  - by_evaluation.
  - vm_compute. reflexivity.
  - discriminate.
Defined.

(** ** validateStoredConfiguration and the stored records *)

Section StoredRecords.

Context {V : Type}.
Variable DEFAULT_CONFIGURATION : gmap jsstring V.
Variable NEXT_PUBLIC_GIT_SHA : option jsstring.

Local Abbreviation validate :=
  (Storage.validateStoredConfiguration DEFAULT_CONFIGURATION
     NEXT_PUBLIC_GIT_SHA).
Local Abbreviation create :=
  (Storage.createStoredConfiguration (V := V) NEXT_PUBLIC_GIT_SHA).

Lemma validate_object (props : gmap jsstring V) (sha : jsstring) :
  validate {| Storage.configuration := Storage.Object props;
              Storage.gitSha := sha |}
  = Some (create (Storage.Object (props ∪ DEFAULT_CONFIGURATION))).
Proof. reflexivity. Qed.

(** X12. Validation is idempotent: a record that validation returned
    validates to itself. *)
Theorem validateStoredConfiguration_idempotent
    (stored result : Storage.StoredConfiguration V) :
  validate stored = Some result -> validate result = Some result.
Proof.
  destruct stored as [[| |p|props] sha].
  - done.
  - done.
  - unfold Storage.validateStoredConfiguration. simpl.
    by rewrite orb_true_r.
  - rewrite validate_object. intros [= <-].
    unfold Storage.createStoredConfiguration. rewrite validate_object.
    unfold Storage.createStoredConfiguration.
    by rewrite <- (assoc_L (∪)), (idemp_L (∪)).
Qed.

(** X13. A configuration that has every key of the defaults survives the
    round trip through [createStoredConfiguration] and validation unchanged,
    keys the defaults do not know included; in particular the default record
    validates to itself. *)
Theorem validateStoredConfiguration_complete (props : gmap jsstring V) :
  dom DEFAULT_CONFIGURATION ⊆ dom props ->
  validate (create (Storage.Object props))
  = Some (create (Storage.Object props))
  /\ validate (Storage.getDefaultStoredConfiguration DEFAULT_CONFIGURATION
                 NEXT_PUBLIC_GIT_SHA)
     = Some (Storage.getDefaultStoredConfiguration DEFAULT_CONFIGURATION
               NEXT_PUBLIC_GIT_SHA).
Proof.
  intros Hdom. split.
  - unfold Storage.createStoredConfiguration at 1. rewrite validate_object.
    do 3 f_equal. apply map_eq. intros k.
    destruct (props !! k) as [v|] eqn:Hk.
    + by rewrite (lookup_union_Some_l _ _ _ _ Hk).
    + rewrite lookup_union_r by done.
      apply not_elem_of_dom. apply not_elem_of_dom in Hk. set_solver.
  - unfold Storage.getDefaultStoredConfiguration. rewrite validate_object.
    unfold Storage.createStoredConfiguration. by rewrite (idemp_L (∪)).
Qed.

(** X14. The stored version tag plays no part in validation: two records
    with the same configuration validate alike whatever their [gitSha], and
    the result carries the current tag. No record is rejected for its
    version. *)
Theorem validateStoredConfiguration_ignores_gitSha
    (configuration : Storage.field V) (sha1 sha2 : jsstring) :
  validate {| Storage.configuration := configuration; Storage.gitSha := sha1 |}
  = validate {| Storage.configuration := configuration;
                Storage.gitSha := sha2 |}
  /\ (forall result,
        validate {| Storage.configuration := configuration;
                    Storage.gitSha := sha1 |} = Some result ->
        Storage.gitSha result
        = Storage.getCurrentGitSha NEXT_PUBLIC_GIT_SHA).
Proof.
  split; [done|].
  intros result. unfold Storage.validateStoredConfiguration. cbn.
  destruct (_ || _); [done|]. destruct configuration; [done|done|done|].
  by intros [= <-].
Qed.

(** X15. Validation drops nothing and adds only defaults: the keys of the
    result are the stored keys together with the keys of the defaults. *)
Theorem validateStoredConfiguration_keys (props : gmap jsstring V)
    (sha : jsstring) :
  exists merged,
    validate {| Storage.configuration := Storage.Object props;
                Storage.gitSha := sha |}
    = Some (create (Storage.Object merged))
    /\ dom merged = dom props ∪ dom DEFAULT_CONFIGURATION.
Proof.
  exists (props ∪ DEFAULT_CONFIGURATION). split; [apply validate_object|].
  apply dom_union_L.
Qed.

End StoredRecords.

(** X13 (instance): a complete configuration with one more key. *)
Lemma validateStoredConfiguration_complete_witness :
  Storage.validateStoredConfiguration
    ({[ str "queenCount" := 8%Z ]} : gmap jsstring Z) None
    (Storage.createStoredConfiguration None
       (Storage.Object {[ str "queenCount" := 3%Z; str "legacy" := 1%Z ]}))
  = Some (Storage.createStoredConfiguration None
            (Storage.Object {[ str "queenCount" := 3%Z; str "legacy" := 1%Z ]}))
  /\ Storage.validateStoredConfiguration
       ({[ str "queenCount" := 8%Z ]} : gmap jsstring Z) None
       (Storage.getDefaultStoredConfiguration {[ str "queenCount" := 8%Z ]} None)
     = Some (Storage.getDefaultStoredConfiguration
               {[ str "queenCount" := 8%Z ]} None).
Proof.
  apply (validateStoredConfiguration_complete
           ({[ str "queenCount" := 8%Z ]} : gmap jsstring Z) None
           {[ str "queenCount" := 3%Z; str "legacy" := 1%Z ]}).
  by_evaluation.
Defined.

(** X12 (instance). *)
Lemma validateStoredConfiguration_idempotent_witness :
  Storage.validateStoredConfiguration
    ({[ str "queenCount" := 8%Z ]} : gmap jsstring Z) None
    (Storage.createStoredConfiguration None
       (Storage.Object {[ str "queenCount" := 8%Z; str "start" := 2%Z ]}))
  = Some (Storage.createStoredConfiguration None
            (Storage.Object {[ str "queenCount" := 8%Z; str "start" := 2%Z ]})).
Proof.
  apply (validateStoredConfiguration_idempotent
           ({[ str "queenCount" := 8%Z ]} : gmap jsstring Z) None
           {| Storage.configuration := Storage.Object {[ str "start" := 2%Z ]};
              Storage.gitSha := str "abc" |}).
  vm_compute. reflexivity.
Defined.

(** ** The command generation test *)

(** X16. The pattern that strips a slot command down to its payload removes
    the command word, the category and the digits of the slot number, and
    nothing of the payload, even when the payload starts with a digit; a
    line that starts with neither slot prefix is left as it is. *)
Theorem slotPayload_strips (category digits payload : jsstring) :
  category = str "tweakdefs" \/ category = str "tweakunits" ->
  forallb isDigit digits = true ->
  Builder.slotPayload
    (str "!bset " ++ category ++ digits ++ str " " ++ payload) = payload
  /\ (forall line,
        startsWith (str "!bset tweakdefs") line = false ->
        startsWith (str "!bset tweakunits") line = false ->
        Builder.slotPayload line = line).
Proof.
  intros Hcat Hd. split.
  - assert (Hafter : Builder.afterSlotPrefix category
                       (str "!bset " ++ category ++ digits ++ str " " ++ payload)
                     = Some payload).
    { unfold Builder.afterSlotPrefix.
      rewrite (app_assoc (str "!bset ") category).
      rewrite startsWith_app, drop_app_length.
      change (str " " ++ payload) with (32 :: payload).
      rewrite span_stop by done. done. }
    unfold Builder.slotPayload. destruct Hcat as [->| ->].
    + by rewrite Hafter.
    + assert (Hn : Builder.afterSlotPrefix (str "tweakdefs")
                     (str "!bset " ++ str "tweakunits" ++ digits ++ str " "
                        ++ payload) = None) by reflexivity.
      rewrite Hn. by rewrite Hafter.
  - intros line Hdefs Hunits. unfold Builder.slotPayload, Builder.afterSlotPrefix.
    change (str "!bset " ++ str "tweakdefs") with (str "!bset tweakdefs").
    change (str "!bset " ++ str "tweakunits") with (str "!bset tweakunits").
    by rewrite Hdefs, Hunits.
Qed.

(** X16 (instance): slot 12 of the tweakunits, with a payload that starts
    with a digit. *)
Lemma slotPayload_strips_witness :
  Builder.slotPayload
    (str "!bset " ++ str "tweakunits" ++ str "12" ++ str " " ++ str "7abc")
  = str "7abc"
  /\ (forall line,
        startsWith (str "!bset tweakdefs") line = false ->
        startsWith (str "!bset tweakunits") line = false ->
        Builder.slotPayload line = line).
Proof.
  apply (slotPayload_strips (str "tweakunits") (str "12") (str "7abc")).
  - by right.
  - reflexivity.
Defined.

Section ExpectedProperties.

Variable BASE_COMMANDS : list jsstring.
Variable BASE_TWEAKS : Builder.TweakValue.
Variable CONFIGURATION_MAPPING
  : jsstring -> jsstring -> option Builder.TweakValue.

Local Abbreviation expected :=
  (mapSettingsToConfig BASE_COMMANDS BASE_TWEAKS CONFIGURATION_MAPPING).
Local Abbreviation push := (pushTweaks CONFIGURATION_MAPPING).

Lemma fold_pushTweaks_elem (configuration : list (jsstring * Builder.setting))
    (mapped : list jsstring) (x : jsstring) :
  x ∈ fold_left push configuration mapped
  <-> x ∈ mapped
      \/ exists entry tweakValue,
           entry ∈ configuration
           /\ CONFIGURATION_MAPPING entry.1 (Builder.stringify entry.2)
              = Some tweakValue
           /\ x ∈ Builder.command tweakValue ++ Builder.tweakdefs tweakValue
                    ++ Builder.tweakunits tweakValue.
Proof.
  revert mapped. induction configuration as [|e rest IH]; intros mapped.
  - cbn [fold_left]. split; [by left|].
    intros [H|(entry & tv & Hin & _)]; [done|]. by apply elem_of_nil in Hin.
  - cbn [fold_left]. rewrite IH. unfold pushTweaks. split.
    + intros [Hx|(entry & tv & Hin & Hm & Hx)].
      * destruct (CONFIGURATION_MAPPING e.1 (Builder.stringify e.2))
          as [tv|] eqn:Hm; [|by left].
        apply elem_of_app in Hx as [Hx|Hx]; [by left|].
        right. exists e, tv. split; [apply list_elem_of_here|done].
      * right. exists entry, tv. split; [by apply list_elem_of_further|done].
    + intros [Hx|(entry & tv & Hin & Hm & Hx)].
      * left. destruct (CONFIGURATION_MAPPING _ _); [|done].
        apply elem_of_app. by left.
      * apply elem_of_cons in Hin as [->|Hin].
        -- left. rewrite Hm. apply elem_of_app. by right.
        -- right. by exists entry, tv.
Qed.



End ExpectedProperties.

(** ** The file name of a data item *)

Lemma last_split_cons (sep c : N) (t : jsstring) :
  last (split sep (c :: t))
  = if c =? sep then last (split sep t)
    else match split sep t with
         | [h] => Some (c :: h)
         | _ => last (split sep t)
         end.
Proof.
  cbn [split]. pose proof (split_nonempty sep t) as Hne.
  destruct (c =? sep).
  - by destruct (split sep t).
  - destruct (split sep t) as [|h [|h' r]]; done.
Qed.

(** X19. The file name shown for a source is the part of the path after
    its last slash, or the whole path when it has no slash: the name holds
    no slash, and the path is the name, or a directory part, a slash and the
    name. A path that ends in a slash has the empty name and shows none; a
    command, which has no source, has no name. *)
Theorem fileName_last_segment (source : jsstring) :
  (exists name,
     fileName (Some source) = Some name
     /\ (chr "/" ∉ name)
     /\ (source = name \/ exists dir, source = dir ++ chr "/" :: name))
  /\ (forall dir, fileNameShown (Some (dir ++ [chr "/"])) = false)
  /\ fileName None = None.
Proof.
  split; [|split; [|done]].
  - unfold fileName. induction source as [|c t (name & Hl & Hn & Hs)].
    + exists []. split; [done|]. split; [apply not_elem_of_nil|by left].
    + rewrite last_split_cons. destruct (N.eqb_spec c (chr "/")) as [->|Hc].
      * exists name. split; [done|]. split; [done|]. right.
        destruct Hs as [->|[dir ->]]; [by exists []|by exists (chr "/" :: dir)].
      * destruct (split (chr "/") t) as [|h [|h' r]] eqn:Hsp.
        -- done.
        -- injection Hl as <-. exists (c :: h). split; [done|].
           assert (Ht : t = h).
           { destruct Hs as [Hs|[dir Hs]]; [done|].
             exfalso. rewrite Hs, split_app_sep in Hsp.
             pose proof (split_nonempty (chr "/") dir) as Hd.
             pose proof (split_nonempty (chr "/") h) as Hh.
             destruct (split (chr "/") dir) as [|? [|? ?]]; [done| |];
               destruct (split (chr "/") h); done. }
           split; [|left; by rewrite Ht].
           apply not_elem_of_cons. split; [congruence|done].
        -- exists name. split; [done|]. split; [done|]. right.
           destruct Hs as [->|[dir ->]].
           ++ exfalso. rewrite split_without in Hsp by done. discriminate.
           ++ by exists (c :: dir).
  - intros dir. unfold fileNameShown, fileName.
    change (dir ++ [chr "/"]) with (dir ++ chr "/" :: []).
    rewrite split_app_sep. cbn [split].
    by rewrite last_app.
Qed.

(** ** interpolateTemplate: inherited names and groups with identifiers *)

Lemma prototypeGet_word (name : jsstring) (v : Obj.value) :
  Obj.prototypeGet name = Some v ->
  name <> [] /\ forallb isWordChar name = true.
Proof.
  unfold Obj.prototypeGet.
  case_bool_decide as H1; [subst; by intros _|].
  case_bool_decide as H2; [subst; by intros _|].
  case_bool_decide as H3; [|done]. intros _.
  unfold Obj.prototypeMethods in H3.
  repeat (apply elem_of_cons in H3 as [->|H3]; [done|]).
  by apply elem_of_nil in H3.
Qed.



Lemma matchGroup_other (c : N) (t : jsstring) :
  c <> chr "(" -> matchGroup (c :: t) = None.
Proof.
  intros Hc. unfold matchGroup. by destruct (N.eqb_spec c (chr "(")).
Qed.

Lemma matchGroup_hit (expression post : jsstring) :
  expression <> [] -> forallb notParen expression = true ->
  matchGroup (chr "(" :: expression ++ chr ")" :: post)
  = Some (chr "(" :: expression ++ [chr ")"], expression, post).
Proof.
  intros Hne Hw. unfold matchGroup. rewrite N.eqb_refl.
  rewrite span_stop by done. destruct expression; [done|].
  by rewrite N.eqb_refl.
Qed.

Lemma secondPass_copy (pre s : jsstring) (log : list warning) :
  chr "(" ∉ pre ->
  secondPass (pre ++ s) log
  = let '(out, log1) := secondPass s log in (pre ++ out, log1).
Proof.
  unfold secondPass. induction pre as [|c pre IH]; intros Hn.
  - cbn [app]. by destruct (replaceAll _ _ s log).
  - apply not_elem_of_cons in Hn as [Hc Hn]. cbn [app].
    rewrite replaceAll_copy by (apply matchGroup_other; congruence).
    rewrite (IH Hn). by destruct (replaceAll _ _ s log).
Qed.


